(** * A threaded serial read loop dispatching to a protocol handler

    Shallow embedding of [Pyserial/pyserial_example.py]: the [Protocol] base
    class, the [ReaderThread] class ([__init__], [stop], [run], [write],
    [close], [connect]) and the [rawProtocal] handler.

    The reader object is a record of its fields; every method is a function
    in a small state-and-exception monad over that record.  The body of
    [run] is cut at the head of its [while] loop, so that the calls other
    threads make on the object ([stop], [close], [write], ...) can be
    interleaved with the iterations of the loop: a schedule is a list of
    operations, one of which is "the reader thread advances by one unit".
    A second, finer model cuts [write] and [close] at their lock operations
    and the write at each byte, for what is said of the lock.

    Outside the model: exceptions that are not instances of [Exception],
    a handler that calls [stop] or [close] on its own transport from inside
    a callback, and a handler factory that raises. *)

From Stdlib Require Import List String Bool Arith ZArith Lia.
Import ListNotations.
Local Open Scope list_scope.

(** * Part I: the program *)

(** ** Exceptions, results *)

Definition bytes := list Byte.byte.

(** Instances of Python's [Exception].  [SerialException] is the class the
    loop catches around the read; the other constructors are not subclasses
    of it. *)
Inductive exn : Type :=
| SerialException (info : nat)
| RuntimeError (msg : string)
| AttributeError (msg : string)
| OtherException (info : nat).

Definition is_SerialException (e : exn) : bool :=
  match e with SerialException _ => true | _ => false end.

Definition is_Exception (e : exn) : bool := true.

(** What a call does: it returns a value, raises, or never returns (it waits
    on a lock or an event that is not released while we look). *)
Inductive result (A : Type) : Type :=
| Returns (a : A)
| Raises (e : exn)
| Blocks.
Arguments Returns {A} a.
Arguments Raises {A} e.
Arguments Blocks {A}.

(** ** The protocol handler *)

(** The record of the calls made on the handler, with what each call was
    given and whether it raised ([None]: it returned). *)
Inductive Call : Type :=
| ConnectionMade (raised : option exn)
| DataReceived (data : bytes) (raised : option exn)
| ConnectionLost (exc : option exn) (raised : option exn).

(** A handler is application code: each method either returns ([None]) or
    raises.  [data_received] and [connection_lost] may depend on everything
    the handler has been called with so far. *)
Record Protocol : Type := {
  connection_made : option exn;
  data_received : list Call -> bytes -> option exn;
  connection_lost : list Call -> option exn -> option exn
}.

(** class Protocol: empty [connection_made] and [data_received];
    [connection_lost] re-raises [exc] when it is an exception. *)
Definition Protocol_connection_lost (exc : option exn) : option exn :=
  match exc with
  | Some e => if is_Exception e then Some e else None
  | None => None
  end.

Definition BaseProtocol : Protocol := {|
  connection_made := None;
  data_received := fun _ _ => None;
  connection_lost := fun _ exc => Protocol_connection_lost exc
|}.

(** class rawProtocal(Protocol): all three methods overridden, none raises
    (the prints and the [running] flag are not part of the loop's state). *)
Definition rawProtocal : Protocol := {|
  connection_made := None;
  data_received := fun _ _ => None;
  connection_lost := fun _ _ => None
|}.

(** A handler whose [connection_made] raises and whose [connection_lost]
    returns; and one that overrides [connection_made] only, so that
    [connection_lost] is the base class's. *)
Definition refusing : Protocol := {|
  connection_made := Some (OtherException 1);
  data_received := fun _ _ => None;
  connection_lost := fun _ _ => None
|}.

Definition refusing_inherited : Protocol := {|
  connection_made := Some (OtherException 1);
  data_received := fun _ _ => None;
  connection_lost := fun _ exc => Protocol_connection_lost exc
|}.

(** A handler whose [data_received] raises on the chunk [b"X"]. *)
Definition raising_on_X : Protocol := {|
  connection_made := None;
  data_received := fun _ data =>
    match data with
    | [Byte.x58] => Some (OtherException 2)
    | _ => None
    end;
  connection_lost := fun _ _ => None
|}.

(** ** The serial port (external) *)

Record Serial : Type := {
  is_open : bool;
  has_cancel_read : bool;            (* hasattr(serial, 'cancel_read') *)
  timeout : option nat;
  cancel_read_calls : nat;
  read_calls : nat;
  close_calls : nat;
  written : list bytes
}.

(** What one call of [serial.read] does. *)
Inductive ReadResult : Type :=
| ReadData (data : bytes)
| ReadRaises (e : exn).

Definition Serial_cancel_read (s : Serial) : Serial :=
  {| is_open := is_open s; has_cancel_read := has_cancel_read s;
     timeout := timeout s; cancel_read_calls := S (cancel_read_calls s);
     read_calls := read_calls s; close_calls := close_calls s;
     written := written s |}.

Definition Serial_set_timeout (t : option nat) (s : Serial) : Serial :=
  {| is_open := is_open s; has_cancel_read := has_cancel_read s;
     timeout := t; cancel_read_calls := cancel_read_calls s;
     read_calls := read_calls s; close_calls := close_calls s;
     written := written s |}.

Definition Serial_count_read (s : Serial) : Serial :=
  {| is_open := is_open s; has_cancel_read := has_cancel_read s;
     timeout := timeout s; cancel_read_calls := cancel_read_calls s;
     read_calls := S (read_calls s); close_calls := close_calls s;
     written := written s |}.

(** [serial.close()]: closing a closed port changes nothing but the count. *)
Definition Serial_close (s : Serial) : Serial :=
  {| is_open := false; has_cancel_read := has_cancel_read s;
     timeout := timeout s; cancel_read_calls := cancel_read_calls s;
     read_calls := read_calls s; close_calls := S (close_calls s);
     written := written s |}.

Definition Serial_write (data : bytes) (s : Serial) : Serial :=
  {| is_open := is_open s; has_cancel_read := has_cancel_read s;
     timeout := timeout s; cancel_read_calls := cancel_read_calls s;
     read_calls := read_calls s; close_calls := close_calls s;
     written := written s ++ [data] |}.

(** The port of the script: [serial_for_url(PORT, baudrate=9600, timeout=1)]. *)
Definition ser : Serial := {|
  is_open := true;
  has_cancel_read := true;
  timeout := Some 1;
  cancel_read_calls := 0;
  read_calls := 0;
  close_calls := 0;
  written := []
|}.

Definition key_a : bytes := [Byte.x61].

(** ** The reader object *)

(** threading.Thread: not started; started with [run] not yet entered; [run]
    at the test of its [while] loop (the local [error] is [None] there);
    [run] left, by returning or by an exception that escaped it. *)
Inductive ThreadState : Type :=
| Unstarted
| Started
| InLoop
| Finished (escaped : option exn).

Record ReaderThread : Type := {
  serial : Serial;
  protocol_factory : Protocol;
  alive : bool;
  _lock : bool;
  _connection_made : bool;
  protocol : option Protocol;
  thread : ThreadState;
  (* not fields of the class: the history of handler calls and the number
     of calls of the factory *)
  calls : list Call;
  factory_calls : nat
}.

Definition set_serial (s : Serial) (st : ReaderThread) : ReaderThread :=
  {| serial := s; protocol_factory := protocol_factory st; alive := alive st;
     _lock := _lock st; _connection_made := _connection_made st;
     protocol := protocol st; thread := thread st; calls := calls st;
     factory_calls := factory_calls st |}.

Definition set_alive (b : bool) (st : ReaderThread) : ReaderThread :=
  {| serial := serial st; protocol_factory := protocol_factory st; alive := b;
     _lock := _lock st; _connection_made := _connection_made st;
     protocol := protocol st; thread := thread st; calls := calls st;
     factory_calls := factory_calls st |}.

Definition set_lock (b : bool) (st : ReaderThread) : ReaderThread :=
  {| serial := serial st; protocol_factory := protocol_factory st;
     alive := alive st; _lock := b; _connection_made := _connection_made st;
     protocol := protocol st; thread := thread st; calls := calls st;
     factory_calls := factory_calls st |}.

Definition set_connection_made (b : bool) (st : ReaderThread) : ReaderThread :=
  {| serial := serial st; protocol_factory := protocol_factory st;
     alive := alive st; _lock := _lock st; _connection_made := b;
     protocol := protocol st; thread := thread st; calls := calls st;
     factory_calls := factory_calls st |}.

Definition set_protocol (p : option Protocol) (st : ReaderThread) : ReaderThread :=
  {| serial := serial st; protocol_factory := protocol_factory st;
     alive := alive st; _lock := _lock st;
     _connection_made := _connection_made st;
     protocol := p; thread := thread st; calls := calls st;
     factory_calls := factory_calls st |}.

Definition set_thread (t : ThreadState) (st : ReaderThread) : ReaderThread :=
  {| serial := serial st; protocol_factory := protocol_factory st;
     alive := alive st; _lock := _lock st;
     _connection_made := _connection_made st;
     protocol := protocol st; thread := t; calls := calls st;
     factory_calls := factory_calls st |}.

Definition log_call (c : Call) (st : ReaderThread) : ReaderThread :=
  {| serial := serial st; protocol_factory := protocol_factory st;
     alive := alive st; _lock := _lock st;
     _connection_made := _connection_made st;
     protocol := protocol st; thread := thread st; calls := calls st ++ [c];
     factory_calls := factory_calls st |}.

Definition count_factory (st : ReaderThread) : ReaderThread :=
  {| serial := serial st; protocol_factory := protocol_factory st;
     alive := alive st; _lock := _lock st;
     _connection_made := _connection_made st;
     protocol := protocol st; thread := thread st; calls := calls st;
     factory_calls := S (factory_calls st) |}.

(** ReaderThread.__init__ *)
Definition init (serial_instance : Serial) (factory : Protocol) : ReaderThread :=
  {| serial := serial_instance;
     protocol_factory := factory;
     alive := true;
     _lock := false;
     _connection_made := false;
     protocol := None;
     thread := Unstarted;
     calls := [];
     factory_calls := 0 |}.

(** ** The monad of methods *)

Module Method.

Definition M (A : Type) : Type := ReaderThread -> result A * ReaderThread.

Definition ret {A} (a : A) : M A := fun st => (Returns a, st).

Definition raise {A} (e : exn) : M A := fun st => (Raises e, st).

Definition bind {A B} (m : M A) (k : A -> M B) : M B :=
  fun st =>
    match m st with
    | (Returns a, st') => k a st'
    | (Raises e, st') => (Raises e, st')
    | (Blocks, st') => (Blocks, st')
    end.

Definition gets {A} (f : ReaderThread -> A) : M A := fun st => (Returns (f st), st).

Definition modify (f : ReaderThread -> ReaderThread) : M unit :=
  fun st => (Returns tt, f st).

(** [try: body / except <class> as e: handler e]; [catches] says which
    exceptions are instances of the class. *)
Definition try_except {A} (catches : exn -> bool) (body : M A)
    (handler : exn -> M A) : M A :=
  fun st =>
    match body st with
    | (Raises e, st') => if catches e then handler e st' else (Raises e, st')
    | other => other
    end.

(** [with self._lock: body]: waits while the lock is taken; releases it
    when the body is left, also by an exception. *)
Definition with_lock {A} (body : M A) : M A :=
  fun st =>
    if _lock st then (Blocks, st)
    else
      match body (set_lock true st) with
      | (Blocks, st') => (Blocks, st')
      | (r, st') => (r, set_lock false st')
      end.

End Method.
Import Method.

Notation "x <- m ;; k" := (bind m (fun x => k))
  (at level 61, m at next level, right associativity).
Notation "m ;;; k" := (bind m (fun _ => k))
  (at level 61, right associativity).

(** ** The port's methods, as the loop calls them *)

(** [self.serial.read(self.serial.in_waiting or 1)]: the outcome is the
    environment's, [in_waiting] included; an empty chunk is a read that
    timed out or was cancelled. *)
Definition serial_read (r : ReadResult) : M bytes :=
  modify (fun st => set_serial (Serial_count_read (serial st)) st) ;;;
  match r with
  | ReadData data => ret data
  | ReadRaises e => raise e
  end.

(** [self.serial.write(data)]: a closed port refuses the write, with the
    port's error class. *)
Definition serial_write (data : bytes) : M unit :=
  o <- gets (fun st => is_open (serial st)) ;;
  if o then modify (fun st => set_serial (Serial_write data (serial st)) st)
  else raise (SerialException 0).

Definition serial_close : M unit :=
  modify (fun st => set_serial (Serial_close (serial st)) st).

(** ** Calls on the handler, through [self.protocol] *)

Definition no_protocol : exn :=
  AttributeError "'NoneType' object has no attribute"%string.

Definition outcome (raised : option exn) : M unit :=
  match raised with
  | None => ret tt
  | Some e => raise e
  end.

Definition call_connection_made : M unit :=
  p <- gets protocol ;;
  match p with
  | None => raise no_protocol
  | Some h =>
      let r := connection_made h in
      modify (log_call (ConnectionMade r)) ;;; outcome r
  end.

Definition call_data_received (data : bytes) : M unit :=
  p <- gets protocol ;;
  match p with
  | None => raise no_protocol
  | Some h =>
      past <- gets calls ;;
      let r := data_received h past data in
      modify (log_call (DataReceived data r)) ;;; outcome r
  end.

Definition call_connection_lost (exc : option exn) : M unit :=
  p <- gets protocol ;;
  match p with
  | None => raise no_protocol
  | Some h =>
      past <- gets calls ;;
      let r := connection_lost h past exc in
      modify (log_call (ConnectionLost exc r)) ;;; outcome r
  end.

(** ** ReaderThread.run, cut at the head of the loop *)

(** Lines 61-72: from the entry of [run] to the first test of the loop.
    [true]: the loop is entered next; [false]: [run] has returned. *)
Definition run_setup : M bool :=
  c <- gets (fun st => has_cancel_read (serial st)) ;;
  (if negb c
   then modify (fun st => set_serial (Serial_set_timeout (Some 1) (serial st)) st)
   else ret tt) ;;;
  f <- gets protocol_factory ;;
  modify count_factory ;;;
  modify (set_protocol (Some f)) ;;;
  made <- try_except is_Exception
            (call_connection_made ;;; ret true)
            (fun e =>
               modify (set_alive false) ;;;
               call_connection_lost (Some e) ;;;
               modify (set_connection_made true) ;;;
               ret false) ;;
  if made
  then modify (set_connection_made true) ;;; ret true
  else ret false.

Inductive LoopControl : Type :=
| Continue
| Break (error : option exn).

(** Lines 73-89: the test of the [while] and one pass through its body.
    The [except serial.SerialException] covers the read only; the handler is
    called in the [else] branch, under its own [except Exception]. *)
Definition run_iteration (r : ReadResult) : M LoopControl :=
  a <- gets alive ;;
  o <- gets (fun st => is_open (serial st)) ;;
  if a && o then
    got <- try_except is_SerialException
             (data <- serial_read r ;; ret (inl data))
             (fun e => ret (inr e)) ;;
    match got with
    | inr e => ret (Break (Some e))
    | inl data =>
        match data with
        | [] => ret Continue
        | _ :: _ =>
            try_except is_Exception
              (call_data_received data ;;; ret Continue)
              (fun e => ret (Break (Some e)))
        end
    end
  else ret (Break None).

(** Lines 90-92. *)
Definition run_teardown (error : option exn) : M unit :=
  modify (set_alive false) ;;;
  call_connection_lost error ;;;
  modify (set_protocol None).

(** ReaderThread.run as a whole, when no other thread touches the object:
    [reads] is what the successive reads do.  [true]: [run] has returned;
    [false]: the reads are used up and the loop goes on. *)
Fixpoint run_loop (reads : list ReadResult) : M (option (option exn)) :=
  match reads with
  | [] => ret None
  | r :: rest =>
      c <- run_iteration r ;;
      match c with
      | Continue => run_loop rest
      | Break error => ret (Some error)
      end
  end.

Definition run_from_loop (reads : list ReadResult) : M bool :=
  out <- run_loop reads ;;
  match out with
  | Some error => run_teardown error ;;; ret true
  | None => ret false
  end.

Definition run (reads : list ReadResult) : M bool :=
  entered <- run_setup ;;
  if entered then run_from_loop reads else ret true.

Definition escaped_of {A} (r : result A) : option exn :=
  match r with
  | Raises e => Some e
  | _ => None
  end.

(** The same, one unit at a time, so that other threads can come in
    between: the reader thread advances from the entry of [run] to the first
    test of the loop, or from one test of the loop to the next, or to the
    end of [run]; it records where it is in [thread].  [r] is what
    [serial.read] does if this unit reaches it. *)
Definition thread_tick (r : ReadResult) (st : ReaderThread) : ReaderThread :=
  match thread st with
  | Unstarted => st
  | Started =>
      match run_setup st with
      | (Returns true, st') => set_thread InLoop st'
      | (res, st') => set_thread (Finished (escaped_of res)) st'
      end
  | InLoop =>
      match run_iteration r st with
      | (Returns Continue, st') => st'
      | (Returns (Break error), st') =>
          let (res, st'') := run_teardown error st' in
          set_thread (Finished (escaped_of res)) st''
      | (res, st') => set_thread (Finished (escaped_of res)) st'
      end
  | Finished _ => st
  end.

(** ** The methods called from other threads *)

(** threading.Thread.start *)
Definition start : M unit :=
  t <- gets thread ;;
  match t with
  | Unstarted => modify (set_thread Started)
  | _ => raise (RuntimeError "threads can only be started once"%string)
  end.

(** threading.Thread.join(2), called from a thread other than the reader:
    an error on a thread that was not started, otherwise a bounded wait that
    leaves the object as it is. *)
Definition join : M unit :=
  t <- gets thread ;;
  match t with
  | Unstarted => raise (RuntimeError "cannot join thread before it is started"%string)
  | _ => ret tt
  end.

(** ReaderThread.stop *)
Definition stop : M unit :=
  modify (set_alive false) ;;;
  c <- gets (fun st => has_cancel_read (serial st)) ;;
  (if c
   then modify (fun st => set_serial (Serial_cancel_read (serial st)) st)
   else ret tt) ;;;
  join.

(** ReaderThread.write (the [print] leaves the object alone) *)
Definition write (data : bytes) : M unit :=
  with_lock (serial_write data).

(** ReaderThread.close *)
Definition close : M unit :=
  with_lock (stop ;;; serial_close).

(** ** Schedules *)

Inductive Op : Type :=
| OpStart
| OpTick (r : ReadResult)
| OpStop
| OpClose
| OpWrite (data : bytes)
| OpConnect
| OpPortClosed.

(** [connect] reads the object and changes nothing; the port may also be
    closed by its owner, outside the reader object. *)
Definition step (op : Op) (st : ReaderThread) : ReaderThread :=
  match op with
  | OpStart => snd (start st)
  | OpTick r => thread_tick r st
  | OpStop => snd (stop st)
  | OpClose => snd (close st)
  | OpWrite data => snd (write data st)
  | OpConnect => st
  | OpPortClosed => snd (serial_close st)
  end.

Definition exec (sched : list Op) (st : ReaderThread) : ReaderThread :=
  fold_left (fun s op => step op s) sched st.

Definition already_stopped : exn := RuntimeError "already stopped"%string.

Definition connection_lost_already_called : exn :=
  RuntimeError "connection_lost already called"%string.

(** ReaderThread.connect.  The call is made in state [st] and reads the
    flag there.  [during] is what the other threads do from then until the
    caller is looked at again: if the event is set by then, the caller has
    come out of [wait] and reads the flag a second time; otherwise it is
    still waiting.  [between] is what the other threads do between that
    second reading of the flag and the reading of [self.protocol].  The
    value returned is the handler of the pair [(self, self.protocol)]. *)
Definition connect (during between : list Op) (st : ReaderThread)
  : result (option Protocol) * ReaderThread :=
  if alive st then
    let st1 := exec during st in
    if _connection_made st1 then
      if negb (alive st1) then (Raises connection_lost_already_called, st1)
      else
        let st2 := exec between st1 in
        (Returns (protocol st2), st2)
    else (Blocks, st1)
  else (Raises already_stopped, st).

(** The state of a reader built on [port] with the handler factory [h],
    after the operations of [sched]. *)
Definition reached (port : Serial) (h : Protocol) (sched : list Op) : ReaderThread :=
  exec sched (init port h).

(** ** Writers and closers, step by step *)

(** A caller thread runs one call, [write(data)] or [close()].  It is
    waiting for the lock; has it and is about to run the body; is inside
    [serial.write], with some bytes out and some to go; has come back from
    [stop] and is about to close the port; is leaving the [with] block with
    the outcome of the body, the lock still taken; or is done. *)
Inductive Caller : Type :=
| CallWrite (data : bytes)
| CallClose.

Inductive Pc : Type :=
| AtLock
| Locked
| Sending (sent rest : bytes)
| Stopped
| Exiting (r : result unit)
| Done (r : result unit).

Inductive Wire : Type :=
| Sent (by_thread : nat) (b : Byte.byte)
| PortClosed (by_thread : nat).

Record System : Type := {
  obj : ReaderThread;
  pcs : nat -> Pc;
  wire : list Wire
}.

Definition upd (i : nat) (pc : Pc) (f : nat -> Pc) : nat -> Pc :=
  fun j => if Nat.eqb j i then pc else f j.

Definition at_pc (i : nat) (pc : Pc) (sys : System) : System :=
  {| obj := obj sys; pcs := upd i pc (pcs sys); wire := wire sys |}.

Definition with_obj (st : ReaderThread) (sys : System) : System :=
  {| obj := st; pcs := pcs sys; wire := wire sys |}.

Definition on_wire (w : Wire) (sys : System) : System :=
  {| obj := obj sys; pcs := pcs sys; wire := wire sys ++ [w] |}.

Definition caller_step (progs : nat -> Caller) (i : nat) (sys : System) : System :=
  match pcs sys i with
  | AtLock =>
      if _lock (obj sys) then sys
      else at_pc i Locked (with_obj (set_lock true (obj sys)) sys)
  | Locked =>
      match progs i with
      | CallWrite data =>
          if is_open (serial (obj sys)) then at_pc i (Sending [] data) sys
          else at_pc i (Exiting (Raises (SerialException 0))) sys
      | CallClose =>
          match stop (obj sys) with
          | (Returns _, st') => at_pc i Stopped (with_obj st' sys)
          | (r, st') => at_pc i (Exiting r) (with_obj st' sys)
          end
      end
  | Sending sent (b :: rest) =>
      at_pc i (Sending (sent ++ [b]) rest) (on_wire (Sent i b) sys)
  | Sending sent [] =>
      at_pc i (Exiting (Returns tt))
        (with_obj (set_serial (Serial_write sent (serial (obj sys))) (obj sys)) sys)
  | Stopped =>
      at_pc i (Exiting (Returns tt))
        (on_wire (PortClosed i) (with_obj (snd (serial_close (obj sys))) sys))
  | Exiting r =>
      at_pc i (Done r) (with_obj (set_lock false (obj sys)) sys)
  | Done _ => sys
  end.

Inductive Move : Type :=
| ByCaller (i : nat)
| ByReader (r : ReadResult).

Definition sys_step (progs : nat -> Caller) (m : Move) (sys : System) : System :=
  match m with
  | ByCaller i => caller_step progs i sys
  | ByReader r => with_obj (thread_tick r (obj sys)) sys
  end.

Definition sys_exec (progs : nat -> Caller) (moves : list Move) (sys : System) : System :=
  fold_left (fun s m => sys_step progs m s) moves sys.

Definition boot (st : ReaderThread) : System :=
  {| obj := st; pcs := fun _ => AtLock; wire := [] |}.

(** The callers [progs] making the moves [moves] on a reader that has gone
    through [before]. *)
Definition contended (port : Serial) (h : Protocol) (before : list Op)
    (progs : nat -> Caller) (moves : list Move) : System :=
  sys_exec progs moves (boot (reached port h before)).

(** Three callers: two writers and a closer. *)
Definition two_writers_one_closer (i : nat) : Caller :=
  match i with
  | 0 => CallWrite key_a
  | 1 => CallClose
  | _ => CallWrite [Byte.x62; Byte.x63]
  end.

(** ** The reader as a context manager *)

(** ReaderThread.__enter__: starts the thread and waits for the event, as
    [connect] does but without looking at the flag first; [during] and
    [between] are as for [connect]. *)
Definition __enter__ (during between : list Op) (st : ReaderThread)
  : result (option Protocol) * ReaderThread :=
  match start st with
  | (Returns _, st0) =>
      let st1 := exec during st0 in
      if _connection_made st1 then
        if negb (alive st1) then (Raises connection_lost_already_called, st1)
        else
          let st2 := exec between st1 in
          (Returns (protocol st2), st2)
      else (Blocks, st1)
  | (Raises e, st0) => (Raises e, st0)
  | (Blocks, st0) => (Blocks, st0)
  end.

(** ReaderThread.__exit__ *)
Definition __exit__ : M unit := close.

(** [with reader as p: block].  The block is given by what is done on the
    reader while it runs, by the block itself and by the other threads, and
    by the exception that leaves it, if any; [None] is a block that does not
    come to an end.  When [__enter__] raises, [__exit__] is not called;
    [__exit__] returns [None], so an exception of the block goes on after
    it. *)
Definition with_ReaderThread (during between : list Op)
    (block : option (list Op * option exn)) (st : ReaderThread)
  : result unit * ReaderThread :=
  match __enter__ during between st with
  | (Returns _, st1) =>
      match block with
      | Some (body, left_by) =>
          match __exit__ (exec body st1) with
          | (Returns _, st3) =>
              (match left_by with None => Returns tt | Some e => Raises e end,
               st3)
          | (Raises e, st3) => (Raises e, st3)
          | (Blocks, st3) => (Blocks, st3)
          end
      | None => (Blocks, st1)
      end
  | (Raises e, st1) => (Raises e, st1)
  | (Blocks, st1) => (Blocks, st1)
  end.

(** ** The key map and the handler of the script, with its attributes *)

Definition KEY_LEFT : nat := 0.
Definition KEY_UP : nat := 1.
Definition KEY_RIGHT : nat := 2.
Definition KEY_DOWN : nat := 3.
Definition KEY_SELECT : nat := 4.
Definition KEY_START : nat := 5.
Definition KEY_SQUARE : nat := 6.
Definition KEY_TRIANGLE : nat := 7.
Definition KEY_X : nat := 8.
Definition KEY_CIRCLE : nat := 9.

(** The dict [Keymap], in the order of the literal: the keys are the byte
    strings b'a', b'w', b'd', b's', b'1', b'2', b'y', b'u', b'h', b'j'. *)
Definition Keymap : list (bytes * (nat * string)) :=
  [ ([Byte.x61], (KEY_LEFT, "KEY_LEFT"%string));
    ([Byte.x77], (KEY_UP, "KEY_UP"%string));
    ([Byte.x64], (KEY_RIGHT, "KEY_RIGHT"%string));
    ([Byte.x73], (KEY_DOWN, "KEY_DOWN"%string));
    ([Byte.x31], (KEY_SELECT, "KEY_SELECT"%string));
    ([Byte.x32], (KEY_START, "KEY_START"%string));
    ([Byte.x79], (KEY_SQUARE, "KEY_SQUARE"%string));
    ([Byte.x75], (KEY_TRIANGLE, "KEY_TRIANGLE"%string));
    ([Byte.x68], (KEY_X, "KEY_X"%string));
    ([Byte.x6a], (KEY_CIRCLE, "KEY_CIRCLE"%string)) ].

Fixpoint bytes_eqb (a b : bytes) : bool :=
  match a, b with
  | [], [] => true
  | x :: a', y :: b' => Byte.eqb x y && bytes_eqb a' b'
  | _, _ => false
  end.

(** [key in d] and [d[key]] on a dict given by its items: [None] when the
    key is absent. *)
Fixpoint dict_get {V : Type} (d : list (bytes * V)) (key : bytes) : option V :=
  match d with
  | [] => None
  | (k, v) :: rest => if bytes_eqb k key then Some v else dict_get rest key
  end.

(** An attribute that [self] may not have yet, may hold [None], or holds
    the reader. *)
Inductive TransportAttr : Type :=
| NoAttr
| IsNone
| IsReader.

Inductive Printed : Type :=
| PrintName (name : string)
| PrintUnknown (data : bytes)
| PrintBytes (data : bytes).

(** An instance of rawProtocal: [self.transport], [self.running] ([None]:
    the attribute is not there yet), and what the instance has printed. *)
Record rawProtocal_object : Type := {
  transport : TransportAttr;
  running : option bool;
  printed : list Printed
}.

(** [rawProtocal()]: the class has no [__init__]. *)
Definition rawProtocal_new : rawProtocal_object :=
  {| transport := NoAttr; running := None; printed := [] |}.

(** rawProtocal.connection_made *)
Definition rawProtocal_connection_made (o : rawProtocal_object) : rawProtocal_object :=
  {| transport := IsReader; running := Some true; printed := printed o |}.

(** rawProtocal.connection_lost *)
Definition rawProtocal_connection_lost (exc : option exn)
    (o : rawProtocal_object) : rawProtocal_object :=
  {| transport := IsNone; running := running o; printed := printed o |}.

(** rawProtocal.data_received *)
Definition rawProtocal_data_received (data : bytes)
    (o : rawProtocal_object) : rawProtocal_object :=
  match dict_get Keymap data with
  | Some (key, name) =>
      {| transport := transport o;
         running := if Nat.eqb key KEY_CIRCLE then Some false else running o;
         printed := printed o ++ [PrintName name] |}
  | None =>
      {| transport := transport o; running := running o;
         printed := printed o ++ [PrintUnknown data] |}
  end.

(** rawProtocal.isDone: the value of [self.running]. *)
Definition rawProtocal_isDone (o : rawProtocal_object) : result bool :=
  match running o with
  | Some b => Returns b
  | None => Raises (AttributeError "running"%string)
  end.

(** rawProtocal.write: prints, then [self.transport.write(data)]. *)
Definition rawProtocal_write (data : bytes) (o : rawProtocal_object)
    (st : ReaderThread) : result unit * (rawProtocal_object * ReaderThread) :=
  let o' := {| transport := transport o; running := running o;
               printed := printed o ++ [PrintBytes data] |} in
  match transport o with
  | IsReader => let (r, st') := write data st in (r, (o', st'))
  | IsNone => (Raises (AttributeError "write"%string), (o', st))
  | NoAttr => (Raises (AttributeError "transport"%string), (o', st))
  end.

(** The instance after the calls the reader has made on it. *)
Definition rawProtocal_call (o : rawProtocal_object) (c : Call) : rawProtocal_object :=
  match c with
  | ConnectionMade _ => rawProtocal_connection_made o
  | DataReceived data _ => rawProtocal_data_received data o
  | ConnectionLost exc _ => rawProtocal_connection_lost exc o
  end.

Definition rawProtocal_after (cs : list Call) : rawProtocal_object :=
  fold_left rawProtocal_call cs rawProtocal_new.

(** The handler [p] of the script, on the port [port], after [sched]. *)
Definition handler_after (port : Serial) (sched : list Op) : rawProtocal_object :=
  rawProtocal_after (calls (reached port rawProtocal sched)).

(** The block of the script, [while p.isDone(): time.sleep(1)], on the
    reader that has gone through [sched]: [sleeps] is what the other threads
    do on the reader during each sleep.  The result is what was done on the
    reader until the loop was left and the exception that left it, if any;
    [None]: the loop still goes on when the sleeps are used up. *)
Fixpoint polled (port : Serial) (sched : list Op) (sleeps : list (list Op))
    {struct sleeps} : option (list Op * option exn) :=
  match rawProtocal_isDone (handler_after port sched) with
  | Returns false => Some ([], None)
  | Raises e => Some ([], Some e)
  | Blocks => None
  | Returns true =>
      match sleeps with
      | [] => None
      | s :: rest =>
          match polled port (sched ++ s) rest with
          | Some (body, left_by) => Some (s ++ body, left_by)
          | None => None
          end
      end
  end.

(** The script: [with ReaderThread(ser, rawProtocal) as p:] and the loop.
    [p] is what [__enter__] returned: the handler, or [None] when the run
    ended between the test of the flag and the reading of [self.protocol],
    and then [p.isDone] raises at the first test. *)
Definition script (port : Serial) (during between : list Op)
    (sleeps : list (list Op)) : result unit * ReaderThread :=
  with_ReaderThread during between
    (match protocol (reached port rawProtocal ((OpStart :: during) ++ between)) with
     | Some _ => polled port ((OpStart :: during) ++ between) sleeps
     | None => Some ([], Some (AttributeError "isDone"%string))
     end)
    (init port rawProtocal).

(** ** Multiprocessing/pipe_communicate.py *)

Inductive Line : Type :=
| LineParentId
| LineProcessInfo
| LineResult (sub_total : Z)
| LineSeconds
| LineBlank
| LineMain (received : Z)
| LineMainDone.

(** The pipe between the two processes, seen from the child's end: whether
    the child's connection is open, what has been sent and not yet received,
    and what both processes have printed. *)
Record Pipe : Type := {
  child_conn_open : bool;
  in_flight : list Z;
  stdout : list Line
}.

Definition handle_is_closed : exn := OtherException 9.

(** [for _ in range(baseNum): sub_total += 1], from [sub_total = 0]. *)
Definition count_up (baseNum : Z) : Z :=
  Nat.iter (Z.to_nat baseNum) (fun sub_total => (sub_total + 1)%Z) 0%Z.

Definition print_line (l : Line) (p : Pipe) : Pipe :=
  {| child_conn_open := child_conn_open p; in_flight := in_flight p;
     stdout := stdout p ++ [l] |}.

(** conn.send *)
Definition conn_send (x : Z) (p : Pipe) : result unit * Pipe :=
  if child_conn_open p
  then (Returns tt,
        {| child_conn_open := true; in_flight := in_flight p ++ [x];
           stdout := stdout p |})
  else (Raises handle_is_closed, p).

(** conn.close *)
Definition conn_close (p : Pipe) : Pipe :=
  {| child_conn_open := false; in_flight := in_flight p; stdout := stdout p |}.

(** worker *)
Definition worker (id baseNum : Z) (p : Pipe) : result unit * Pipe :=
  let sub_total := count_up baseNum in
  match conn_send sub_total p with
  | (Returns _, p1) =>
      (Returns tt,
       print_line (LineResult sub_total)
         (print_line LineProcessInfo (conn_close p1)))
  | (r, p1) => (r, p1)
  end.

(** parent_conn.recv(): the first message in flight; with none, it waits
    (the parent still holds its own copy of the child's end). *)
Definition parent_recv (p : Pipe) : result Z * Pipe :=
  match in_flight p with
  | x :: rest =>
      (Returns x,
       {| child_conn_open := child_conn_open p; in_flight := rest;
          stdout := stdout p |})
  | [] => (Blocks, p)
  end.

(** main, with the count it gives the worker: [Pipe()], the child process
    started and joined, then [recv]. *)
Definition main_with (baseNum : Z) : result unit * Pipe :=
  let p0 := print_line LineParentId
              {| child_conn_open := true; in_flight := []; stdout := [] |} in
  let p1 := snd (worker 1 baseNum p0) in
  let p2 := print_line LineBlank (print_line LineSeconds p1) in
  match parent_recv p2 with
  | (Returns x, p3) =>
      (Returns tt, print_line LineMainDone (print_line (LineMain x) p3))
  | (Raises e, p3) => (Raises e, p3)
  | (Blocks, p3) => (Blocks, p3)
  end.

Definition main : result unit * Pipe := main_with 100000000.

(** * Part II: the vocabulary of the statements *)

(** ** The states a schedule can reach *)

(** A [data_received] call with a non-empty chunk; [data_ok]: one that
    returned. *)
Definition data_call (c : Call) : Prop :=
  match c with
  | DataReceived (_ :: _) _ => True
  | _ => False
  end.

Definition data_ok (c : Call) : Prop :=
  match c with
  | DataReceived (_ :: _) None => True
  | _ => False
  end.

Definition no_exn (r : option exn) : bool :=
  match r with
  | None => true
  | Some _ => false
  end.

Inductive Shape (port : Serial) (h : Protocol) (st : ReaderThread) : Prop :=
| ShapeBefore :
    thread st = Unstarted \/ thread st = Started ->
    calls st = [] -> protocol st = None -> factory_calls st = 0 ->
    _connection_made st = false ->
    read_calls (serial st) = read_calls port ->
    Shape port h st
| ShapeLoop (ds : list Call) :
    thread st = InLoop ->
    connection_made h = None ->
    calls st = ConnectionMade None :: ds -> Forall data_ok ds ->
    protocol st = Some h -> factory_calls st = 1 ->
    _connection_made st = true ->
    Shape port h st
| ShapeFailed (e : exn) (r : option exn) :
    thread st = Finished r ->
    connection_made h = Some e ->
    calls st = [ConnectionMade (Some e); ConnectionLost (Some e) r] ->
    alive st = false ->
    protocol st = Some h -> factory_calls st = 1 ->
    _connection_made st = no_exn r ->
    read_calls (serial st) = read_calls port ->
    Shape port h st
| ShapeLost (ds : list Call) (error r : option exn) :
    thread st = Finished r ->
    connection_made h = None ->
    calls st = ConnectionMade None :: ds ++ [ConnectionLost error r] ->
    Forall data_call ds ->
    alive st = false ->
    protocol st = (if no_exn r then None else Some h) ->
    factory_calls st = 1 ->
    _connection_made st = true ->
    Shape port h st
| ShapeEscaped (ds : list Call) (e : exn) :
    thread st = Finished (Some e) ->
    is_SerialException e = false ->
    connection_made h = None ->
    calls st = ConnectionMade None :: ds -> Forall data_ok ds ->
    protocol st = Some h -> factory_calls st = 1 ->
    _connection_made st = true ->
    Shape port h st.

Definition Inv (port : Serial) (h : Protocol) (st : ReaderThread) : Prop :=
  protocol_factory st = h /\ _lock st = false /\ Shape port h st.

(** The caller's methods leave the reader thread's side of the object
    alone, and never raise the flag. *)
Definition same_reader (st st' : ReaderThread) : Prop :=
  thread st' = thread st /\ calls st' = calls st /\
  protocol st' = protocol st /\ factory_calls st' = factory_calls st /\
  protocol_factory st' = protocol_factory st /\
  _connection_made st' = _connection_made st /\
  read_calls (serial st') = read_calls (serial st) /\
  (alive st = false -> alive st' = false) /\
  (_lock st = false -> _lock st' = false).

(** ** Counting calls *)

Definition is_connection_lost (c : Call) : bool :=
  match c with
  | ConnectionLost _ _ => true
  | _ => false
  end.

Definition lost_calls (cs : list Call) : nat :=
  List.length (filter is_connection_lost cs).



(** ** The history of the [alive] flag *)




(** ** The lock *)

(** A caller is inside [with self._lock]. *)
Definition holds (pc : Pc) : bool :=
  match pc with
  | Locked | Sending _ _ | Stopped | Exiting _ => true
  | AtLock | Done _ => false
  end.

(** What a call that returned has put on the wire, and what a caller
    inside the lock has put there so far. *)
Definition block (progs : nat -> Caller) (i : nat) : list Wire :=
  match progs i with
  | CallWrite data => map (Sent i) data
  | CallClose => [PortClosed i]
  end.

Definition pending (progs : nat -> Caller) (i : nat) (pc : Pc) : list Wire :=
  match pc with
  | Sending sent _ => map (Sent i) sent
  | Exiting (Returns _) => block progs i
  | _ => []
  end.

(** What is known of a caller at each point, the callers in [order] being
    those whose call has returned. *)
Definition pc_fact (progs : nat -> Caller) (st : ReaderThread) (j : nat)
    (pc : Pc) : Prop :=
  match pc with
  | Sending sent rest =>
      progs j = CallWrite (sent ++ rest) /\ is_open (serial st) = true
  | Stopped => progs j = CallClose
  | Exiting (Raises _) | Done (Raises _) =>
      forall data, progs j = CallWrite data -> is_open (serial st) = false
  | _ => True
  end.

Definition pc_ok (progs : nat -> Caller) (st : ReaderThread) (order : list nat)
    (j : nat) (pc : Pc) : Prop :=
  (In j order <-> pc = Done (Returns tt)) /\ pc_fact progs st j pc.

Definition lock_ok (progs : nat -> Caller) (sys : System) (order : list nat) : Prop :=
  (_lock (obj sys) = false /\
   (forall j, holds (pcs sys j) = false) /\
   wire sys = flat_map (block progs) order) \/
  (exists i,
     _lock (obj sys) = true /\
     holds (pcs sys i) = true /\
     (forall j, holds (pcs sys j) = true -> j = i) /\
     wire sys = flat_map (block progs) order ++ pending progs i (pcs sys i)).

Definition SysInv (progs : nat -> Caller) (sys : System) (order : list nat) : Prop :=
  NoDup order /\
  (forall j, pc_ok progs (obj sys) order j (pcs sys j)) /\
  lock_ok progs sys order.

(** ** Histories, operations of callers, writes *)

(** The histories of handler calls: nothing yet; a failed start; a
    connection with its chunks; the same ended by the flag or the closed
    port, by an error of the port, or by [data_received] raising. *)
Inductive Hist : list Call -> Prop :=
| HistEmpty : Hist []
| HistFailed (e : exn) (r : option exn) :
    Hist [ConnectionMade (Some e); ConnectionLost (Some e) r]
| HistOpen (ds : list Call) :
    Forall data_ok ds -> Hist (ConnectionMade None :: ds)
| HistStopped (ds : list Call) (r : option exn) :
    Forall data_ok ds ->
    Hist (ConnectionMade None :: ds ++ [ConnectionLost None r])
| HistPortError (ds : list Call) (e : exn) (r : option exn) :
    Forall data_ok ds -> is_SerialException e = true ->
    Hist (ConnectionMade None :: ds ++ [ConnectionLost (Some e) r])
| HistHandlerError (ds : list Call) (b : Byte.byte) (data : bytes) (e : exn)
    (r : option exn) :
    Forall data_ok ds ->
    Hist (ConnectionMade None ::
          ds ++ [DataReceived (b :: data) (Some e); ConnectionLost (Some e) r]).


(** An operation that is not a unit of the reader thread. *)
Definition caller_op (op : Op) : Prop :=
  match op with
  | OpTick _ => False
  | _ => True
  end.

(** An operation that does not close the port. *)
Definition keeps_open (op : Op) : Prop :=
  match op with
  | OpClose | OpPortClosed => False
  | _ => True
  end.

(** The chunks of the [write] calls of a schedule, in order. *)
Definition writes_of (sched : list Op) : list bytes :=
  flat_map (fun op => match op with OpWrite data => [data] | _ => [] end) sched.

(** The run has begun: the thread is past the entry of [run]. *)
Definition run_begun (t : ThreadState) : bool :=
  match t with
  | Unstarted | Started => false
  | InLoop | Finished _ => true
  end.

Definition not_connection_made (c : Call) : Prop :=
  match c with
  | ConnectionMade _ => False
  | _ => True
  end.

(** A chunk that is the key b'j' alone. *)
Definition is_circle (c : Call) : bool :=
  match c with
  | DataReceived data _ => bytes_eqb data [Byte.x6a]
  | _ => false
  end.

(** ** Tactics *)

Ltac unfold_methods :=
  unfold step, thread_tick, close, write, stop, start, join,
    run_setup, run_iteration, run_teardown, with_lock, try_except,
    call_connection_made, call_data_received, call_connection_lost,
    serial_read, serial_write, serial_close,
    outcome, escaped_of, bind, ret, raise, gets, modify in *.

(** * Part III: lemmas *)

(** ** Schedules *)

Lemma exec_app (s1 s2 : list Op) (st : ReaderThread) :
  exec (s1 ++ s2) st = exec s2 (exec s1 st).
Proof. unfold exec. apply fold_left_app. Qed.

Lemma exec_cons (op : Op) (s : list Op) (st : ReaderThread) :
  exec (op :: s) st = exec s (step op st).
Proof. reflexivity. Qed.

(** An invariant of the steps allowed by [Q] holds after every schedule
    made of such steps. *)
Lemma exec_invariant (Q : Op -> Prop) (P : ReaderThread -> Prop) :
  (forall op st, Q op -> P st -> P (step op st)) ->
  forall sched st, Forall Q sched -> P st -> P (exec sched st).
Proof.
  intros Hstep sched. induction sched as [|op sched IH]; intros st HQ HP.
  - exact HP.
  - rewrite exec_cons. inversion HQ; subst. apply IH; auto.
Qed.

Lemma exec_invariant_all (P : ReaderThread -> Prop) :
  (forall op st, P st -> P (step op st)) ->
  forall sched st, P st -> P (exec sched st).
Proof.
  intros Hstep sched st HP.
  apply (exec_invariant (fun _ => True)); auto.
  apply Forall_forall. auto.
Qed.

Lemma reached_app (port : Serial) (h : Protocol) (s1 s2 : list Op) :
  reached port h (s1 ++ s2) = exec s2 (reached port h s1).
Proof. unfold reached. apply exec_app. Qed.

(** ** The run alone and the run in units *)

Lemma set_thread_twice (a b : ThreadState) (st : ReaderThread) :
  set_thread a (set_thread b st) = set_thread a st.
Proof. reflexivity. Qed.

Lemma ticks_when_finished (reads : list ReadResult) (st : ReaderThread)
    (x : option exn) :
  thread st = Finished x -> exec (map OpTick reads) st = st.
Proof.
  intros Ht. induction reads as [|r reads IH]; [reflexivity|].
  simpl. change (exec (map OpTick reads) (thread_tick r st) = st).
  unfold thread_tick. rewrite Ht. exact IH.
Qed.

(** The body of [run] does not look at where the thread is. *)
Lemma run_setup_set_thread (t : ThreadState) (st : ReaderThread) :
  run_setup (set_thread t st) =
    (fst (run_setup st), set_thread t (snd (run_setup st))).
Proof.
  destruct st as [s f a l c p t0 cs n]. unfold_methods. simpl.
  destruct (has_cancel_read s); simpl;
    (destruct (connection_made f); simpl;
     [destruct (connection_lost f _ _); reflexivity|reflexivity]).
Qed.

Lemma run_iteration_set_thread (t : ThreadState) (r : ReadResult)
    (st : ReaderThread) :
  run_iteration r (set_thread t st) =
    (fst (run_iteration r st), set_thread t (snd (run_iteration r st))).
Proof.
  destruct st as [s f a l c p t0 cs n]. unfold_methods. simpl.
  destruct a; simpl; [destruct (is_open s); simpl|]; auto.
  destruct r as [[|b data]|e]; simpl; auto.
  - destruct p as [h|]; simpl; auto.
    destruct (data_received h cs (b :: data)); reflexivity.
  - destruct (is_SerialException e); reflexivity.
Qed.

Lemma run_teardown_set_thread (t : ThreadState) (error : option exn)
    (st : ReaderThread) :
  run_teardown error (set_thread t st) =
    (fst (run_teardown error st), set_thread t (snd (run_teardown error st))).
Proof.
  destruct st as [s f a l c p t0 cs n]. unfold_methods. simpl.
  destruct p as [h|]; simpl; auto.
  destruct (connection_lost h cs error); reflexivity.
Qed.

(** Left alone, the units of the reader thread do what [run] does. *)
Lemma run_from_loop_in_ticks (t : ThreadState) (reads : list ReadResult) :
  forall st,
    set_thread t (snd (run_from_loop reads st)) =
    set_thread t (exec (map OpTick reads) (set_thread InLoop st)).
Proof.
  induction reads as [|r reads IH]; intros st; [reflexivity|].
  change (exec (map OpTick (r :: reads)) (set_thread InLoop st))
    with (exec (map OpTick reads) (thread_tick r (set_thread InLoop st))).
  unfold thread_tick.
  change (thread (set_thread InLoop st)) with InLoop. cbv iota.
  rewrite run_iteration_set_thread.
  unfold run_from_loop in *. simpl run_loop. unfold bind at 1 2.
  destruct (run_iteration r st) as [[[|error]|e|] st'] eqn:Hit;
    cbn [fst snd].
  - rewrite <- IH. reflexivity.
  - rewrite run_teardown_set_thread. unfold ret at 1.
    destruct (run_teardown error st') as [res st''] eqn:Htd; cbn [fst snd].
    rewrite (ticks_when_finished reads _ (escaped_of res)) by reflexivity.
    unfold bind. rewrite Htd.
    destruct res; reflexivity.
  - rewrite (ticks_when_finished reads _ (Some e)) by reflexivity.
    reflexivity.
  - rewrite (ticks_when_finished reads _ None) by reflexivity.
    reflexivity.
Qed.

Lemma run_in_ticks (t : ThreadState) (r0 : ReadResult)
    (reads : list ReadResult) (st : ReaderThread) :
  set_thread t (snd (run reads st)) =
  set_thread t (exec (OpTick r0 :: map OpTick reads) (set_thread Started st)).
Proof.
  change (exec (OpTick r0 :: map OpTick reads) (set_thread Started st))
    with (exec (map OpTick reads) (thread_tick r0 (set_thread Started st))).
  unfold thread_tick.
  change (thread (set_thread Started st)) with Started. cbv iota.
  rewrite run_setup_set_thread. unfold run, bind at 1.
  destruct (run_setup st) as [[[|]|e|] st'] eqn:Hs; cbn [fst snd].
  - rewrite set_thread_twice. apply run_from_loop_in_ticks.
  - rewrite (ticks_when_finished reads _ None) by reflexivity. reflexivity.
  - rewrite (ticks_when_finished reads _ (Some e)) by reflexivity. reflexivity.
  - rewrite (ticks_when_finished reads _ None) by reflexivity. reflexivity.
Qed.

(** ** The reachable states *)

Lemma data_ok_call (c : Call) : data_ok c -> data_call c.
Proof. destruct c as [| [|] [|] |]; simpl; auto. Qed.

Lemma same_reader_refl (st : ReaderThread) : same_reader st st.
Proof. unfold same_reader. tauto. Qed.

Lemma stop_same_reader (st : ReaderThread) : same_reader st (snd (stop st)).
Proof.
  destruct st as [s f a l c p t cs n]. unfold same_reader. unfold_methods.
  simpl. destruct (has_cancel_read s); destruct t; simpl; tauto.
Qed.

Lemma close_same_reader (st : ReaderThread) : same_reader st (snd (close st)).
Proof.
  destruct st as [s f a l c p t cs n]. unfold same_reader. unfold_methods.
  simpl. destruct l; simpl; [tauto|].
  destruct (has_cancel_read s); destruct t; simpl; tauto.
Qed.

Lemma write_same_reader (data : bytes) (st : ReaderThread) :
  same_reader st (snd (write data st)).
Proof.
  destruct st as [s f a l c p t cs n]. unfold same_reader. unfold_methods.
  simpl. destruct l; simpl; [tauto|].
  destruct (is_open s); simpl; tauto.
Qed.

Lemma port_closed_same_reader (st : ReaderThread) :
  same_reader st (snd (serial_close st)).
Proof.
  destruct st as [s f a l c p t cs n]. unfold same_reader. unfold_methods.
  simpl. tauto.
Qed.

Create HintDb frame.
#[local] Hint Resolve same_reader_refl stop_same_reader close_same_reader
  write_same_reader port_closed_same_reader : frame.

Lemma Inv_same_reader (port : Serial) (h : Protocol) (st st' : ReaderThread) :
  same_reader st st' -> Inv port h st -> Inv port h st'.
Proof.
  intros (Ht & Hc & Hp & Hn & Hf & He & Hr & Ha & Hl) (If & Il & Is).
  split; [congruence|]. split; [auto|].
  destruct Is.
  - apply ShapeBefore; [destruct H; [left|right]; congruence | congruence ..].
  - apply (ShapeLoop _ _ _ ds); auto; congruence.
  - apply (ShapeFailed _ _ _ e r); auto; congruence.
  - apply (ShapeLost _ _ _ ds error r); auto; congruence.
  - apply (ShapeEscaped _ _ _ ds e); auto; congruence.
Qed.

Lemma init_Inv (port : Serial) (h : Protocol) : Inv port h (init port h).
Proof.
  split; [reflexivity|]. split; [reflexivity|].
  apply ShapeBefore; auto.
Qed.

Lemma start_Inv (port : Serial) (h : Protocol) (st : ReaderThread) :
  Inv port h st -> Inv port h (snd (start st)).
Proof.
  intros (If & Il & Is).
  destruct (thread st) eqn:Ht.
  - assert (E : snd (start st) = set_thread Started st).
    { unfold_methods. rewrite Ht. reflexivity. }
    rewrite E. split; [exact If|]. split; [exact Il|].
    destruct Is; try congruence.
    apply ShapeBefore; auto.
  - assert (E : snd (start st) = st) by (unfold_methods; rewrite Ht; reflexivity).
    rewrite E. repeat split; auto.
  - assert (E : snd (start st) = st) by (unfold_methods; rewrite Ht; reflexivity).
    rewrite E. repeat split; auto.
  - assert (E : snd (start st) = st) by (unfold_methods; rewrite Ht; reflexivity).
    rewrite E. repeat split; auto.
Qed.

Lemma tick_Inv (port : Serial) (h : Protocol) (r : ReadResult) (st : ReaderThread) :
  Inv port h st -> Inv port h (thread_tick r st).
Proof.
  intros (If & Il & Is).
  destruct st as [s f a l c p t cs n]. simpl in *. subst f l.
  destruct Is as [Ht Hc Hp Hn He Hr | ds Ht Hm Hc Hd Hp Hn He
                 | e x Ht Hm Hc Ha Hp Hn He Hr | ds error x Ht Hm Hc Hd Ha Hp Hn He
                 | ds e Ht He' Hm Hc Hd Hp Hn He]; simpl in *; subst.
  - destruct Ht as [Ht|Ht]; subst t.
    + unfold thread_tick; simpl. split; [reflexivity|]. split; [reflexivity|].
      apply ShapeBefore; auto.
    + unfold_methods. simpl.
      destruct (has_cancel_read s) eqn:Hcr; simpl;
        (destruct (connection_made h) as [e|] eqn:Hm; simpl;
         [destruct (connection_lost h [ConnectionMade (Some e)] (Some e)) as [e'|] eqn:Hl; simpl|]).
      all: split; [reflexivity|split; [reflexivity|]].
      all: first [ apply (ShapeFailed _ _ _ e (Some e')); simpl; auto; fail
                 | apply (ShapeFailed _ _ _ e None); simpl; auto; fail
                 | apply (ShapeLoop _ _ _ []); simpl; auto; fail ].
  - unfold_methods. simpl.
    destruct a; simpl; [destruct (is_open s) eqn:Ho; simpl|].
    + (* the loop is entered *)
      destruct r as [[|b data]|e]; simpl.
      * split; [reflexivity|split; [reflexivity|]].
        apply (ShapeLoop _ _ _ ds); simpl; auto.
      * destruct (data_received h (ConnectionMade None :: ds) (b :: data))
          as [e|] eqn:Hdr; simpl.
        -- destruct (connection_lost h
                       (ConnectionMade None :: ds ++
                          [DataReceived (b :: data) (Some e)]) (Some e))
             as [e'|] eqn:Hl; simpl;
             (split; [reflexivity|split; [reflexivity|]]).
           ++ apply (ShapeLost _ _ _ (ds ++ [DataReceived (b :: data) (Some e)])
                       (Some e) (Some e')); simpl; auto.
              apply Forall_app; split;
                [eapply Forall_impl; [apply data_ok_call|exact Hd]
                |repeat constructor].
           ++ apply (ShapeLost _ _ _ (ds ++ [DataReceived (b :: data) (Some e)])
                       (Some e) None); simpl; auto.
              apply Forall_app; split;
                [eapply Forall_impl; [apply data_ok_call|exact Hd]
                |repeat constructor].
        -- split; [reflexivity|split; [reflexivity|]].
           apply (ShapeLoop _ _ _ (ds ++ [DataReceived (b :: data) None]));
             simpl; auto.
           apply Forall_app; split; [exact Hd|repeat constructor].
      * destruct (is_SerialException e) eqn:Hse; simpl.
        -- destruct (connection_lost h (ConnectionMade None :: ds) (Some e))
             as [e'|] eqn:Hl; simpl;
             (split; [reflexivity|split; [reflexivity|]]).
           ++ apply (ShapeLost _ _ _ ds (Some e) (Some e')); simpl; auto.
              eapply Forall_impl; [apply data_ok_call|exact Hd].
           ++ apply (ShapeLost _ _ _ ds (Some e) None); simpl; auto.
              eapply Forall_impl; [apply data_ok_call|exact Hd].
        -- split; [reflexivity|split; [reflexivity|]].
           apply (ShapeEscaped _ _ _ ds e); simpl; auto.
    + (* the port is closed *)
      destruct (connection_lost h (ConnectionMade None :: ds) None)
        as [e'|] eqn:Hl; simpl;
        (split; [reflexivity|split; [reflexivity|]]).
      * apply (ShapeLost _ _ _ ds None (Some e')); simpl; auto.
        eapply Forall_impl; [apply data_ok_call|exact Hd].
      * apply (ShapeLost _ _ _ ds None None); simpl; auto.
        eapply Forall_impl; [apply data_ok_call|exact Hd].
    + (* the flag is down *)
      destruct (connection_lost h (ConnectionMade None :: ds) None)
        as [e'|] eqn:Hl; simpl;
        (split; [reflexivity|split; [reflexivity|]]).
      * apply (ShapeLost _ _ _ ds None (Some e')); simpl; auto.
        eapply Forall_impl; [apply data_ok_call|exact Hd].
      * apply (ShapeLost _ _ _ ds None None); simpl; auto.
        eapply Forall_impl; [apply data_ok_call|exact Hd].
  - unfold thread_tick; simpl. split; [reflexivity|split; [reflexivity|]].
    apply (ShapeFailed _ _ _ e x); auto.
  - unfold thread_tick; simpl. split; [reflexivity|split; [reflexivity|]].
    apply (ShapeLost _ _ _ ds error x); auto.
  - unfold thread_tick; simpl. split; [reflexivity|split; [reflexivity|]].
    apply (ShapeEscaped _ _ _ ds e); auto.
Qed.

Lemma step_Inv (port : Serial) (h : Protocol) (op : Op) (st : ReaderThread) :
  Inv port h st -> Inv port h (step op st).
Proof.
  intros HI. destruct op; simpl.
  - apply start_Inv; exact HI.
  - apply tick_Inv; exact HI.
  - eapply Inv_same_reader; [|exact HI]; auto with frame.
  - eapply Inv_same_reader; [|exact HI]; auto with frame.
  - eapply Inv_same_reader; [|exact HI]; auto with frame.
  - exact HI.
  - eapply Inv_same_reader; [|exact HI]; auto with frame.
Qed.

Lemma exec_Inv (port : Serial) (h : Protocol) (sched : list Op) :
  Inv port h (exec sched (init port h)).
Proof.
  apply exec_invariant_all; [intros; apply step_Inv; assumption|].
  apply init_Inv.
Qed.

Lemma reached_Shape (port : Serial) (h : Protocol) (sched : list Op) :
  Shape port h (reached port h sched).
Proof. destruct (exec_Inv port h sched) as (_ & _ & Hs). exact Hs. Qed.

(** ** Counting [connection_lost] *)

Lemma lost_calls_app (l1 l2 : list Call) :
  lost_calls (l1 ++ l2) = lost_calls l1 + lost_calls l2.
Proof. unfold lost_calls. rewrite filter_app, length_app. reflexivity. Qed.

Lemma lost_calls_data (ds : list Call) :
  Forall data_call ds -> lost_calls ds = 0.
Proof.
  induction 1 as [|c ds Hc _ IH]; [reflexivity|].
  destruct c; simpl in Hc; try contradiction. exact IH.
Qed.

Lemma lost_calls_snoc (l : list Call) (exc x : option exn) :
  lost_calls (l ++ [ConnectionLost exc x]) = S (lost_calls l).
Proof.
  rewrite lost_calls_app.
  change (lost_calls [ConnectionLost exc x]) with 1. lia.
Qed.


Lemma Shape_running_lost (port : Serial) (h : Protocol) (st : ReaderThread) :
  Shape port h st -> (forall x, thread st <> Finished x) ->
  lost_calls (calls st) = 0.
Proof.
  intros [Ht Hc Hp Hn He Hr | ds Ht Hm Hc Hd Hp Hn He
         | e x Ht Hm Hc Ha Hp Hn He Hr | ds error x Ht Hm Hc Hd Ha Hp Hn He
         | ds e Ht He' Hm Hc Hd Hp Hn He] Hnf;
    try (exfalso; eapply Hnf; eassumption).
  - rewrite Hc. reflexivity.
  - rewrite Hc. change (lost_calls ds = 0).
    apply lost_calls_data. eapply Forall_impl; [apply data_ok_call|exact Hd].
Qed.




Lemma same_reader_trans (st1 st2 st3 : ReaderThread) :
  same_reader st1 st2 -> same_reader st2 st3 -> same_reader st1 st3.
Proof.
  unfold same_reader. intros (A1 & A2 & A3 & A4 & A5 & A6 & A7 & A8 & A9)
                             (B1 & B2 & B3 & B4 & B5 & B6 & B7 & B8 & B9).
  repeat split; try congruence; auto.
Qed.

(** Once [run] is over, nothing touches the reader's side any more. *)
Lemma finished_step_same (op : Op) (st : ReaderThread) (x : option exn) :
  thread st = Finished x -> same_reader st (step op st).
Proof.
  intros Ht. destruct op; simpl.
  - unfold_methods. rewrite Ht. simpl. apply same_reader_refl.
  - unfold thread_tick. rewrite Ht. apply same_reader_refl.
  - auto with frame.
  - auto with frame.
  - auto with frame.
  - auto with frame.
  - auto with frame.
Qed.

Lemma finished_exec_same (sched : list Op) (st : ReaderThread) (x : option exn) :
  thread st = Finished x -> same_reader st (exec sched st).
Proof.
  revert st. induction sched as [|op sched IH]; intros st Ht.
  - apply same_reader_refl.
  - rewrite exec_cons.
    pose proof (finished_step_same op st x Ht) as Hs.
    eapply same_reader_trans; [exact Hs|].
    apply IH. destruct Hs as (E & _). congruence.
Qed.

(** Only a unit of the reader thread can end the run. *)
Lemma step_finishes_by_tick (op : Op) (st : ReaderThread) (esc : option exn) :
  (forall x, thread st <> Finished x) ->
  thread (step op st) = Finished esc ->
  exists r, op = OpTick r.
Proof.
  intros Hnf Hf. destruct op; unfold step in Hf.
  - exfalso. unfold_methods. destruct (thread st) eqn:Ht; simpl in Hf;
      try rewrite Ht in Hf; try discriminate. eapply Hnf; reflexivity.
  - eauto.
  - destruct (stop_same_reader st) as (E & _). rewrite E in Hf.
    exfalso; eapply Hnf; eassumption.
  - destruct (close_same_reader st) as (E & _). rewrite E in Hf.
    exfalso; eapply Hnf; eassumption.
  - destruct (write_same_reader data st) as (E & _). rewrite E in Hf.
    exfalso; eapply Hnf; eassumption.
  - exfalso; eapply Hnf; eassumption.
  - destruct (port_closed_same_reader st) as (E & _). rewrite E in Hf.
    exfalso; eapply Hnf; eassumption.
Qed.


(** ** The calls a handler sees *)

Lemma Shape_calls (port : Serial) (h : Protocol) (st : ReaderThread) :
  Shape port h st ->
  calls st = [] \/
  (exists e r, calls st = [ConnectionMade (Some e); ConnectionLost (Some e) r]) \/
  (exists ds tl, calls st = ConnectionMade None :: ds ++ tl /\
                 Forall data_call ds /\
                 (tl = [] \/ exists error r, tl = [ConnectionLost error r])).
Proof.
  intros [Ht Hc Hp Hn He Hr | ds Ht Hm Hc Hd Hp Hn He
         | e x Ht Hm Hc Ha Hp Hn He Hr | ds error x Ht Hm Hc Hd Ha Hp Hn He
         | ds e Ht He' Hm Hc Hd Hp Hn He].
  - left. exact Hc.
  - right. right. exists ds, []. rewrite app_nil_r. repeat split; auto.
    eapply Forall_impl; [apply data_ok_call|exact Hd].
  - right. left. eauto.
  - right. right. exists ds, [ConnectionLost error x]. repeat split; eauto.
  - right. right. exists ds, []. rewrite app_nil_r. repeat split; auto.
    eapply Forall_impl; [apply data_ok_call|exact Hd].
Qed.

Lemma data_prefix (ds tl pre post : list Call) (c : Call) :
  Forall data_call ds ->
  (forall x, In x tl -> ~ data_call x) ->
  data_call c ->
  ds ++ tl = pre ++ c :: post ->
  Forall data_call pre.
Proof.
  intros Hd Htl Hc. revert pre.
  induction Hd as [|d ds Hd0 Hd IH]; intros pre E.
  - exfalso. apply (Htl c); [|exact Hc].
    simpl in E. rewrite E. apply in_or_app. right. left. reflexivity.
  - destruct pre as [|p pre]; [constructor|].
    simpl in E. injection E as -> E. constructor; [exact Hd0|].
    apply IH. exact E.
Qed.

Lemma tick_read_escapes (st : ReaderThread) (e : exn) :
  thread st = InLoop -> alive st = true -> is_open (serial st) = true ->
  is_SerialException e = false ->
  thread_tick (ReadRaises e) st =
    set_thread (Finished (Some e))
      (set_serial (Serial_count_read (serial st)) st).
Proof.
  intros Ht Ha Ho He.
  destruct st as [s f a l c p t cs n]. simpl in *. subst.
  unfold_methods. simpl. rewrite Ho. simpl. rewrite He. reflexivity.
Qed.

Lemma tick_read_stream_error (st : ReaderThread) (h : Protocol) (e : exn) :
  thread st = InLoop -> alive st = true -> is_open (serial st) = true ->
  protocol st = Some h ->
  is_SerialException e = true ->
  calls (thread_tick (ReadRaises e) st) =
    calls st ++ [ConnectionLost (Some e) (connection_lost h (calls st) (Some e))]
  /\ alive (thread_tick (ReadRaises e) st) = false.
Proof.
  intros Ht Ha Ho Hp He.
  destruct st as [s f a l c p t cs n]. simpl in *. subst.
  unfold_methods. simpl. rewrite Ho. simpl. rewrite He. simpl.
  destruct (connection_lost h cs (Some e)); simpl; auto.
Qed.

Lemma tick_empty_read (st : ReaderThread) :
  thread st = InLoop -> alive st = true -> is_open (serial st) = true ->
  thread_tick (ReadData []) st =
    set_serial (Serial_count_read (serial st)) st.
Proof.
  intros Ht Ha Ho.
  destruct st as [s f a l c p t cs n]. simpl in *. subst.
  unfold_methods. simpl. rewrite Ho. reflexivity.
Qed.


(** ** The flag *)





(** ** The lock *)

Lemma tick_keeps_lock_port (r : ReadResult) (st : ReaderThread) :
  _lock (thread_tick r st) = _lock st /\
  is_open (serial (thread_tick r st)) = is_open (serial st).
Proof.
  destruct st as [s f a l c p t cs n].
  destruct t; unfold_methods; simpl; auto.
  - destruct (has_cancel_read s); simpl;
      (destruct (connection_made f); simpl;
       [destruct (connection_lost f _ _); simpl; auto|auto]).
  - destruct a; simpl; [destruct (is_open s) eqn:Ho; simpl|].
    + destruct r as [[|b data]|e]; simpl; auto.
      * destruct p as [h|]; simpl.
        -- destruct (data_received h cs (b :: data)); simpl; auto.
           destruct (connection_lost h _ _); simpl; auto.
        -- auto.
      * destruct (is_SerialException e); simpl; auto.
        destruct p as [h|]; simpl; auto.
        destruct (connection_lost h _ _); simpl; auto.
    + destruct p as [h|]; simpl; auto.
      destruct (connection_lost h _ _); simpl; auto.
    + destruct p as [h|]; simpl; auto.
      destruct (connection_lost h _ _); simpl; auto.
Qed.

Lemma stop_keeps_lock_port (st : ReaderThread) :
  _lock (snd (stop st)) = _lock st /\
  is_open (serial (snd (stop st))) = is_open (serial st).
Proof.
  destruct st as [s f a l c p t cs n]. unfold_methods. simpl.
  destruct (has_cancel_read s); destruct t; simpl; auto.
Qed.

Lemma stop_returns_or_raises (st : ReaderThread) : fst (stop st) <> Blocks.
Proof.
  destruct st as [s f a l c p t cs n]. unfold_methods. simpl.
  destruct (has_cancel_read s); destruct t; simpl; discriminate.
Qed.

Section Callers.

Variable progs : nat -> Caller.

Lemma upd_same (i : nat) (pc : Pc) (f : nat -> Pc) : upd i pc f i = pc.
Proof. unfold upd. rewrite Nat.eqb_refl. reflexivity. Qed.

Lemma upd_other (i j : nat) (pc : Pc) (f : nat -> Pc) :
  j <> i -> upd i pc f j = f j.
Proof. intros H. unfold upd. apply Nat.eqb_neq in H. rewrite H. reflexivity. Qed.

Lemma pc_ok_frame (st st' : ReaderThread)
    (order : list nat) (j : nat) (pc : Pc) :
  is_open (serial st') = is_open (serial st) ->
  pc_ok progs st order j pc -> pc_ok progs st' order j pc.
Proof. unfold pc_ok, pc_fact. intros ->. auto. Qed.

Lemma pc_ok_closed (st st' : ReaderThread)
    (order : list nat) (j : nat) (pc : Pc) :
  is_open (serial st') = false -> holds pc = false ->
  pc_ok progs st order j pc -> pc_ok progs st' order j pc.
Proof.
  unfold pc_ok, pc_fact. intros Ho Hh [H1 H2]. split; [exact H1|].
  destruct pc as [| | | |r|r]; try discriminate; auto.
  destruct r; auto.
Qed.

Lemma pc_ok_order (st : ReaderThread)
    (order : list nat) (i j : nat) (pc : Pc) :
  j <> i -> pc_ok progs st order j pc -> pc_ok progs st (order ++ [i]) j pc.
Proof.
  unfold pc_ok. intros Hn [H1 H2]. split; [|exact H2].
  rewrite in_app_iff. simpl. split.
  - intros [H|[H|[]]]; [apply H1; exact H|congruence].
  - intros H. left. apply H1. exact H.
Qed.

Lemma holder_is (sys : System) (order : list nat) (i : nat) :
  lock_ok progs sys order -> holds (pcs sys i) = true ->
  _lock (obj sys) = true /\
  (forall j, holds (pcs sys j) = true -> j = i) /\
  wire sys = flat_map (block progs) order ++ pending progs i (pcs sys i).
Proof.
  intros [(_ & Hnone & _)|(i0 & Hlk & Hh & Huniq & Hw)] Hi.
  - rewrite Hnone in Hi. discriminate.
  - assert (i = i0) by (apply Huniq; exact Hi). subst i0. auto.
Qed.

Lemma holds_not_done (pc : Pc) : holds pc = true -> pc <> Done (Returns tt).
Proof. destruct pc; simpl; congruence. Qed.

(** A step of the caller that has the lock and keeps it. *)
Lemma holder_step (sys sys' : System)
    (order : list nat) (i : nat) (pc' : Pc) :
  SysInv progs sys order ->
  holds (pcs sys i) = true ->
  pcs sys' = upd i pc' (pcs sys) ->
  _lock (obj sys') = true ->
  holds pc' = true ->
  wire sys' = flat_map (block progs) order ++ pending progs i pc' ->
  pc_fact progs (obj sys') i pc' ->
  (forall j, j <> i -> holds (pcs sys j) = false ->
             pc_ok progs (obj sys) order j (pcs sys j) ->
             pc_ok progs (obj sys') order j (pcs sys j)) ->
  SysInv progs sys' order.
Proof.
  intros (Hnd & Hpc & Hl) Hi Hp Hlk Hh Hw Hfact Hothers.
  destruct (holder_is _ _ _ Hl Hi) as (_ & Huniq & _).
  split; [exact Hnd|]. split.
  - intros j. rewrite Hp. destruct (Nat.eq_dec j i) as [->|Hne].
    + rewrite upd_same. split; [|exact Hfact].
      split; intros H.
      * exfalso. apply (proj1 (Hpc i)) in H.
        apply (holds_not_done _ Hi). exact H.
      * exfalso. apply (holds_not_done _ Hh). exact H.
    + rewrite upd_other by exact Hne. apply Hothers; auto.
      destruct (holds (pcs sys j)) eqn:Hj; [|reflexivity].
      exfalso. apply Hne. apply Huniq. exact Hj.
  - right. exists i. rewrite Hp, upd_same. repeat split; auto.
    intros j Hj. destruct (Nat.eq_dec j i) as [|Hne]; [assumption|].
    rewrite upd_other in Hj by exact Hne. apply Huniq. exact Hj.
Qed.

Lemma caller_step_inv (i : nat) (sys : System)
    (order : list nat) :
  SysInv progs sys order ->
  exists order', SysInv progs (caller_step progs i sys) order'.
Proof.
  intros HI. pose proof HI as (Hnd & Hpc & Hl). unfold caller_step.
  destruct (pcs sys i) as [| |sent rest| |r|r] eqn:Hi.
  - (* waiting for the lock *)
    destruct (_lock (obj sys)) eqn:Hlk; [exists order; exact HI|].
    exists order.
    destruct Hl as [(_ & Hnone & Hw)|(i0 & Hlk' & _)]; [|congruence].
    split; [exact Hnd|]. split.
    + intros j. simpl. destruct (Nat.eq_dec j i) as [->|Hne].
      * rewrite upd_same. split; [|exact I].
        split; intros H; [|discriminate].
        apply (proj1 (Hpc i)) in H. congruence.
      * rewrite upd_other by exact Hne.
        apply (pc_ok_frame (obj sys)); [reflexivity|apply Hpc].
    + right. exists i. simpl. rewrite upd_same. repeat split; auto.
      * intros j Hj. destruct (Nat.eq_dec j i) as [|Hne]; [assumption|].
        rewrite upd_other in Hj by exact Hne. rewrite Hnone in Hj. discriminate.
      * rewrite app_nil_r. exact Hw.
  - (* the lock is taken: the body begins *)
    assert (Hh : holds (pcs sys i) = true) by (rewrite Hi; reflexivity).
    destruct (holder_is _ _ _ Hl Hh) as (Hlk & _ & Hw).
    rewrite Hi in Hw. simpl in Hw.
    exists order. destruct (progs i) as [data|] eqn:Hprog.
    + destruct (is_open (serial (obj sys))) eqn:Ho.
      * apply (holder_step sys _ order i (Sending [] data));
          [exact HI|exact Hh|reflexivity|exact Hlk|reflexivity|exact Hw| |].
        -- simpl. auto.
        -- intros j _ _. apply pc_ok_frame. reflexivity.
      * apply (holder_step sys _ order i
                 (Exiting (Raises (SerialException 0))));
          [exact HI|exact Hh|reflexivity|exact Hlk|reflexivity|exact Hw| |].
        -- simpl. auto.
        -- intros j _ _. apply pc_ok_frame. reflexivity.
    + destruct (stop_keeps_lock_port (obj sys)) as [Sl So].
      destruct (stop (obj sys)) as [[u|e|] st'] eqn:Hstop; simpl in Sl, So.
      * apply (holder_step sys _ order i Stopped);
          [exact HI|exact Hh|reflexivity|simpl; congruence|reflexivity
          |exact Hw| |].
        -- exact Hprog.
        -- intros j _ _. apply pc_ok_frame. exact So.
      * apply (holder_step sys _ order i (Exiting (Raises e)));
          [exact HI|exact Hh|reflexivity|simpl; congruence|reflexivity
          |exact Hw| |].
        -- simpl. intros data Hd. congruence.
        -- intros j _ _. apply pc_ok_frame. exact So.
      * apply (holder_step sys _ order i (Exiting Blocks));
          [exact HI|exact Hh|reflexivity|simpl; congruence|reflexivity
          |exact Hw| |].
        -- exact I.
        -- intros j _ _. apply pc_ok_frame. exact So.
  - (* a write is under way *)
    assert (Hh : holds (pcs sys i) = true) by (rewrite Hi; reflexivity).
    destruct (holder_is _ _ _ Hl Hh) as (Hlk & _ & Hw).
    rewrite Hi in Hw. simpl in Hw.
    destruct (Hpc i) as [_ Hf]. rewrite Hi in Hf. destruct Hf as [Hprog Ho].
    exists order. destruct rest as [|b rest].
    + apply (holder_step sys _ order i (Exiting (Returns tt)));
        [exact HI|exact Hh|reflexivity|exact Hlk|reflexivity| | |].
      * simpl. unfold block. rewrite Hprog, app_nil_r. exact Hw.
      * exact I.
      * intros j _ _. apply pc_ok_frame. reflexivity.
    + apply (holder_step sys _ order i (Sending (sent ++ [b]) rest));
        [exact HI|exact Hh|reflexivity|exact Hlk|reflexivity| | |].
      * simpl. rewrite Hw, map_app, <- app_assoc. reflexivity.
      * simpl. rewrite <- app_assoc. auto.
      * intros j _ _. apply pc_ok_frame. reflexivity.
  - (* stop has returned: the port is closed *)
    assert (Hh : holds (pcs sys i) = true) by (rewrite Hi; reflexivity).
    destruct (holder_is _ _ _ Hl Hh) as (Hlk & _ & Hw).
    rewrite Hi in Hw. simpl in Hw.
    destruct (Hpc i) as [_ Hf]. rewrite Hi in Hf. simpl in Hf.
    exists order.
    apply (holder_step sys _ order i (Exiting (Returns tt)));
      [exact HI|exact Hh|reflexivity|exact Hlk|reflexivity| | |].
    + simpl. unfold block. rewrite Hf, Hw, app_nil_r. reflexivity.
    + exact I.
    + intros j _ Hj. apply pc_ok_closed; [reflexivity|exact Hj].
  - (* the lock is released *)
    assert (Hh : holds (pcs sys i) = true) by (rewrite Hi; reflexivity).
    destruct (holder_is _ _ _ Hl Hh) as (Hlk & Huniq & Hw).
    rewrite Hi in Hw.
    destruct (Hpc i) as [Hin Hf]. rewrite Hi in Hin, Hf.
    assert (Hni : ~ In i order) by (intros H; apply Hin in H; discriminate).
    assert (Hnone : forall j, holds (upd i (Done r) (pcs sys) j) = false).
    { intros j. destruct (Nat.eq_dec j i) as [->|Hne].
      - rewrite upd_same. reflexivity.
      - rewrite upd_other by exact Hne.
        destruct (holds (pcs sys j)) eqn:Hj; [|reflexivity].
        exfalso. apply Hne. apply Huniq. exact Hj. }
    destruct r as [[]|e|].
    + exists (order ++ [i]). split; [|split].
      * apply NoDup_app; [exact Hnd|repeat constructor; intros []|].
        intros x Hx [<-|[]]. apply Hni. exact Hx.
      * intros j. simpl. destruct (Nat.eq_dec j i) as [->|Hne].
        -- rewrite upd_same. split; [|exact I].
           split; [reflexivity|]. intros _. apply in_or_app. right. left. reflexivity.
        -- rewrite upd_other by exact Hne. apply pc_ok_order; [exact Hne|].
           apply (pc_ok_frame (obj sys)); [reflexivity|apply Hpc].
      * left. simpl. repeat split; auto.
        rewrite flat_map_app. simpl. rewrite app_nil_r. exact Hw.
    + exists order. split; [exact Hnd|split].
      * intros j. simpl. destruct (Nat.eq_dec j i) as [->|Hne].
        -- rewrite upd_same. split; [|exact Hf].
           split; intros H; [contradiction|discriminate].
        -- rewrite upd_other by exact Hne.
           apply (pc_ok_frame (obj sys)); [reflexivity|apply Hpc].
      * left. simpl. repeat split; auto.
        simpl in Hw. rewrite app_nil_r in Hw. exact Hw.
    + exists order. split; [exact Hnd|split].
      * intros j. simpl. destruct (Nat.eq_dec j i) as [->|Hne].
        -- rewrite upd_same. split; [|exact I].
           split; intros H; [contradiction|discriminate].
        -- rewrite upd_other by exact Hne.
           apply (pc_ok_frame (obj sys)); [reflexivity|apply Hpc].
      * left. simpl. repeat split; auto.
        simpl in Hw. rewrite app_nil_r in Hw. exact Hw.
  - exists order. exact HI.
Qed.

Lemma sys_step_inv (m : Move) (sys : System)
    (order : list nat) :
  SysInv progs sys order ->
  exists order', SysInv progs (sys_step progs m sys) order'.
Proof.
  intros HI. destruct m as [i|r]; simpl.
  - apply (caller_step_inv i sys order). exact HI.
  - exists order. destruct HI as (Hnd & Hpc & Hl).
    destruct (tick_keeps_lock_port r (obj sys)) as [Tl To].
    split; [exact Hnd|]. split.
    + intros j. simpl. apply (pc_ok_frame (obj sys)); [exact To|apply Hpc].
    + destruct Hl as [(Hlk & Hnone & Hw)|(i & Hlk & Hh & Huniq & Hw)].
      * left. simpl. rewrite Tl. auto.
      * right. exists i. simpl. rewrite Tl. auto.
Qed.

Lemma sys_exec_inv (moves : list Move) (sys : System) :
  (exists order, SysInv progs sys order) ->
  exists order, SysInv progs (sys_exec progs moves sys) order.
Proof.
  revert sys. induction moves as [|m moves IH]; intros sys [order HI].
  - exists order. exact HI.
  - simpl. apply IH. apply (sys_step_inv m sys order HI).
Qed.

Lemma boot_inv (st : ReaderThread) :
  _lock st = false -> SysInv progs (boot st) [].
Proof.
  intros Hl. split; [constructor|]. split.
  - intros j. unfold pc_ok. simpl. split; [|exact I].
    split; [intros []|discriminate].
  - left. simpl. auto.
Qed.

Lemma block_tag (i j : nat) (b : Byte.byte) :
  In (Sent i b) (block progs j) -> j = i.
Proof.
  unfold block. destruct (progs j) as [data|].
  - rewrite in_map_iff. intros (x & E & _). congruence.
  - intros [E|[]]. discriminate.
Qed.

Lemma pending_tag (i j : nat) (pc : Pc) (b : Byte.byte) :
  In (Sent i b) (pending progs j pc) -> j = i.
Proof.
  destruct pc as [| |sent rest| |[u|e|]|r]; simpl; try (intros []).
  - rewrite in_map_iff. intros (x & E & _). congruence.
  - apply block_tag.
Qed.

Lemma sending_run (i : nat) (rest : bytes) :
  forall (sys : System) (sent : bytes),
    pcs sys i = Sending sent rest ->
    obj (sys_exec progs (repeat (ByCaller i) (List.length rest)) sys) = obj sys /\
    wire (sys_exec progs (repeat (ByCaller i) (List.length rest)) sys) =
      wire sys ++ map (Sent i) rest /\
    pcs (sys_exec progs (repeat (ByCaller i) (List.length rest)) sys) i =
      Sending (sent ++ rest) [].
Proof.
  induction rest as [|b rest IH]; intros sys sent Hi.
  - simpl. rewrite !app_nil_r. auto.
  - assert (E : caller_step progs i sys =
                at_pc i (Sending (sent ++ [b]) rest) (on_wire (Sent i b) sys)).
    { unfold caller_step. rewrite Hi. reflexivity. }
    simpl. rewrite E.
    destruct (IH (at_pc i (Sending (sent ++ [b]) rest) (on_wire (Sent i b) sys))
                 (sent ++ [b])) as (Eo & Ew & Ep).
    { simpl. apply upd_same. }
    rewrite Eo, Ew, Ep. simpl. rewrite <- !app_assoc. auto.
Qed.

Lemma sys_exec_app (m1 m2 : list Move) (sys : System) :
  sys_exec progs (m1 ++ m2) sys = sys_exec progs m2 (sys_exec progs m1 sys).
Proof. unfold sys_exec. apply fold_left_app. Qed.

Lemma done_run (i n : nat) (sys : System) (r : result unit) :
  pcs sys i = Done r ->
  sys_exec progs (repeat (ByCaller i) n) sys = sys.
Proof.
  intros Hi. induction n as [|n IH]; [reflexivity|].
  simpl. unfold caller_step. rewrite Hi. exact IH.
Qed.

Lemma exiting_run (i n : nat) (sys : System)
    (r : result unit) :
  pcs sys i = Exiting r ->
  obj (sys_exec progs (repeat (ByCaller i) (S n)) sys) = set_lock false (obj sys) /\
  pcs (sys_exec progs (repeat (ByCaller i) (S n)) sys) i = Done r /\
  wire (sys_exec progs (repeat (ByCaller i) (S n)) sys) = wire sys.
Proof.
  intros Hi.
  assert (E : caller_step progs i sys =
              at_pc i (Done r) (with_obj (set_lock false (obj sys)) sys)).
  { unfold caller_step. rewrite Hi. reflexivity. }
  simpl. rewrite E.
  rewrite (done_run i n _ r) by (simpl; apply upd_same).
  simpl. rewrite upd_same. auto.
Qed.

(** Run alone, the steps of a writer do what [write] does, and put the
    whole chunk on the wire or nothing. *)
Lemma write_in_steps (i : nat) (data : bytes)
    (st : ReaderThread) :
  progs i = CallWrite data -> _lock st = false ->
  obj (sys_exec progs (repeat (ByCaller i) (2 + (List.length data + 2))) (boot st))
    = snd (write data st) /\
  pcs (sys_exec progs (repeat (ByCaller i) (2 + (List.length data + 2))) (boot st)) i
    = Done (fst (write data st)) /\
  wire (sys_exec progs (repeat (ByCaller i) (2 + (List.length data + 2))) (boot st))
    = if is_open (serial st) then map (Sent i) data else [].
Proof.
  intros Hp Hl.
  change (repeat (ByCaller i) (2 + (List.length data + 2)))
    with (ByCaller i :: ByCaller i :: repeat (ByCaller i) (List.length data + 2)).
  simpl sys_exec.
  assert (E1 : caller_step progs i (boot st) =
               at_pc i Locked (with_obj (set_lock true st) (boot st))).
  { unfold caller_step. simpl. rewrite Hl. reflexivity. }
  rewrite E1.
  destruct (is_open (serial st)) eqn:Ho.
  - assert (E2 : caller_step progs i
                   (at_pc i Locked (with_obj (set_lock true st) (boot st))) =
                 at_pc i (Sending [] data)
                   (at_pc i Locked (with_obj (set_lock true st) (boot st)))).
    { unfold caller_step. simpl. rewrite upd_same, Hp, Ho. reflexivity. }
    rewrite E2. rewrite repeat_app, sys_exec_app.
    destruct (sending_run i data
                (at_pc i (Sending [] data)
                   (at_pc i Locked (with_obj (set_lock true st) (boot st)))) [])
      as (Eo & Ew & Ep); [simpl; apply upd_same|].
    set (sys1 := sys_exec progs (repeat (ByCaller i) (List.length data)) _) in *.
    simpl in Eo, Ew, Ep.
    assert (E3 : caller_step progs i sys1 =
                 at_pc i (Exiting (Returns tt))
                   (with_obj (set_serial (Serial_write data (serial (obj sys1)))
                                (obj sys1)) sys1)).
    { unfold caller_step. rewrite Ep. reflexivity. }
    simpl. rewrite E3. unfold caller_step. simpl. rewrite upd_same. simpl.
    rewrite upd_same, Eo, Ew.
    destruct st as [s f a l c p t cs n]. simpl in *. subst l.
    unfold_methods. simpl. rewrite Ho. simpl. auto.
  - assert (E2 : caller_step progs i
                   (at_pc i Locked (with_obj (set_lock true st) (boot st))) =
                 at_pc i (Exiting (Raises (SerialException 0)))
                   (at_pc i Locked (with_obj (set_lock true st) (boot st)))).
    { unfold caller_step. simpl. rewrite upd_same, Hp, Ho. reflexivity. }
    rewrite E2. rewrite Nat.add_comm.
    destruct (exiting_run i (S (List.length data))
                (at_pc i (Exiting (Raises (SerialException 0)))
                   (at_pc i Locked (with_obj (set_lock true st) (boot st))))
                (Raises (SerialException 0)))
      as (Eo & Ep & Ew); [simpl; apply upd_same|].
    change (2 + List.length data) with (S (S (List.length data))).
    rewrite Eo, Ep, Ew.
    destruct st as [s f a l c p t cs n]. simpl in *. subst l.
    unfold_methods. simpl. rewrite Ho. simpl. auto.
Qed.

(** Run alone, the four steps of a closer do what [close] does. *)
Lemma close_in_steps (i : nat) (st : ReaderThread) :
  progs i = CallClose -> _lock st = false ->
  obj (sys_exec progs (repeat (ByCaller i) 4) (boot st)) = snd (close st) /\
  pcs (sys_exec progs (repeat (ByCaller i) 4) (boot st)) i = Done (fst (close st)).
Proof.
  intros Hp Hl.
  change (repeat (ByCaller i) 4)
    with ([ByCaller i; ByCaller i] ++ repeat (ByCaller i) 2).
  rewrite sys_exec_app. cbn [sys_exec fold_left sys_step].
  assert (E1 : caller_step progs i (boot st) =
               at_pc i Locked (with_obj (set_lock true st) (boot st))).
  { unfold caller_step. simpl. rewrite Hl. reflexivity. }
  rewrite E1.
  pose proof (stop_returns_or_raises (set_lock true st)) as Hnb.
  unfold close, with_lock, bind. rewrite Hl.
  destruct (stop (set_lock true st)) as [[u|e|] st'] eqn:Hs;
    [| |exfalso; apply Hnb; reflexivity].
  - assert (E2 : caller_step progs i
                   (at_pc i Locked (with_obj (set_lock true st) (boot st))) =
                 at_pc i Stopped
                   (with_obj st'
                      (at_pc i Locked (with_obj (set_lock true st) (boot st))))).
    { unfold caller_step. simpl. rewrite upd_same, Hp, Hs. reflexivity. }
    rewrite E2. simpl. unfold caller_step. simpl. rewrite upd_same. simpl.
    rewrite upd_same. simpl. rewrite upd_same. auto.
  - assert (E2 : caller_step progs i
                   (at_pc i Locked (with_obj (set_lock true st) (boot st))) =
                 at_pc i (Exiting (Raises e))
                   (with_obj st'
                      (at_pc i Locked (with_obj (set_lock true st) (boot st))))).
    { unfold caller_step. simpl. rewrite upd_same, Hp, Hs. reflexivity. }
    rewrite E2.
    destruct (exiting_run i 1
                (at_pc i (Exiting (Raises e))
                   (with_obj st'
                      (at_pc i Locked (with_obj (set_lock true st) (boot st)))))
                (Raises e))
      as (Eo & Ep & _); [simpl; apply upd_same|].
    rewrite Eo, Ep. auto.
Qed.

End Callers.

(** * Part IV: scenarios *)

(** Scenario A: the chunks [b"AB"] then [b"C"] reach the handler in that
    order, and nothing is lost before [close]. *)
Example scenario_A :
  calls (reached ser rawProtocal
           [OpStart; OpTick (ReadData []);
            OpTick (ReadData [Byte.x41; Byte.x42]); OpTick (ReadData [Byte.x43])])
  = [ConnectionMade None; DataReceived [Byte.x41; Byte.x42] None;
     DataReceived [Byte.x43] None].
Proof. reflexivity. Qed.

(** Scenario B: [data_received] raises on [b"X"]: [connection_lost] gets
    that error and the flag is down. *)
Example scenario_B :
  let st := reached ser raising_on_X
              [OpStart; OpTick (ReadData []); OpTick (ReadData [Byte.x58])] in
  calls st = [ConnectionMade None;
              DataReceived [Byte.x58] (Some (OtherException 2));
              ConnectionLost (Some (OtherException 2)) None] /\
  alive st = false /\ thread st = Finished None.
Proof. repeat split. Qed.

(** The run alone, on the reads of scenario B: it returns, and has made the
    same calls. *)
Example scenario_B_run :
  fst (run [ReadData [Byte.x58]] (init ser raising_on_X)) = Returns true /\
  calls (snd (run [ReadData [Byte.x58]] (init ser raising_on_X))) =
    [ConnectionMade None;
     DataReceived [Byte.x58] (Some (OtherException 2));
     ConnectionLost (Some (OtherException 2)) None].
Proof. split; reflexivity. Qed.

(** Scenario C: [stop] with nothing to read: the run ends at its next test
    of the loop, with [connection_lost(None)]. *)
Example scenario_C :
  let st := reached ser rawProtocal
              [OpStart; OpTick (ReadData []); OpStop; OpTick (ReadData [])] in
  calls st = [ConnectionMade None; ConnectionLost None None] /\
  thread st = Finished None /\ cancel_read_calls (serial st) = 1.
Proof. repeat split. Qed.

(** Scenario D: [close] twice. *)
Example scenario_D :
  let st := reached ser rawProtocal
              [OpStart; OpTick (ReadData []); OpClose; OpTick (ReadData []);
               OpClose] in
  is_open (serial st) = false /\ close_calls (serial st) = 2 /\
  calls st = [ConnectionMade None; ConnectionLost None None].
Proof. repeat split. Qed.

(** The script at the end of the file, [with ReaderThread(ser, rawProtocal)
    as p], receiving [b"j"]: [__enter__] starts the thread and waits as
    [connect] does; [__exit__] closes. *)
Example script_run :
  let entered := reached ser rawProtocal [OpStart; OpTick (ReadData [])] in
  let left := exec [OpTick (ReadData [Byte.x6a]); OpClose; OpTick (ReadData [])]
                entered in
  _connection_made entered = true /\ alive entered = true /\
  protocol entered = Some rawProtocal /\
  calls left = [ConnectionMade None; DataReceived [Byte.x6a] None;
                ConnectionLost None None] /\
  is_open (serial left) = false /\ protocol left = None.
Proof. repeat split. Qed.

(** * Part V: the claims *)



(** C2, as stated, fails: on a reader that was never started [connect]
    waits and raises nothing; on a run that is already over it raises
    'already stopped', not 'connection_lost already called'. *)
Lemma connect_unstarted_blocks :
  fst (connect [] [] (reached ser rawProtocal [])) = Blocks /\
  fst (connect [OpWrite key_a; OpTick (ReadData []); OpConnect] []
         (reached ser rawProtocal [])) = Blocks /\
  (let st := reached ser rawProtocal
               [OpStart; OpTick (ReadData []);
                OpTick (ReadRaises (SerialException 0))] in
   thread st = Finished None /\
   fst (connect [] [] st) = Raises already_stopped /\
   fst (connect [] [] st) <> Raises connection_lost_already_called).
Proof.
  split; [reflexivity|]. split; [reflexivity|].
  split; [reflexivity|]. split; [reflexivity|discriminate].
Qed.

(** C2, amended: [connect] raises 'already stopped' at once when the flag
    is down at the call (the run went through its end, or [stop]/[close] was
    called, started or not).  Otherwise it waits for the event: as long as
    the event is not set it does not return, and the event is not set while
    the thread is not started; once the event is set it raises
    'connection_lost already called' if the flag went down during the wait,
    and otherwise returns the pair, whose handler is the one the factory
    made if it is read at once (it is whatever [self.protocol] holds at the
    moment it is read). *)
Theorem connect_outcomes (port : Serial) (h : Protocol)
    (sched during between : list Op) :
  (alive (reached port h sched) = false ->
   fst (connect during between (reached port h sched)) = Raises already_stopped) /\
  (alive (reached port h sched) = true ->
   _connection_made (reached port h (sched ++ during)) = false ->
   fst (connect during between (reached port h sched)) = Blocks) /\
  (alive (reached port h sched) = true ->
   _connection_made (reached port h (sched ++ during)) = true ->
   alive (reached port h (sched ++ during)) = true ->
   fst (connect during between (reached port h sched)) =
     Returns (protocol (reached port h ((sched ++ during) ++ between))) /\
   fst (connect during [] (reached port h sched)) = Returns (Some h)) /\
  (alive (reached port h sched) = true ->
   _connection_made (reached port h (sched ++ during)) = true ->
   alive (reached port h (sched ++ during)) = false ->
   fst (connect during between (reached port h sched)) =
     Raises connection_lost_already_called) /\
  (thread (reached port h (sched ++ during)) = Unstarted ->
   _connection_made (reached port h (sched ++ during)) = false).
Proof.
  pose proof (reached_Shape port h (sched ++ during)) as Hs.
  rewrite !reached_app in *.
  unfold connect.
  split; [intros ->; reflexivity|].
  split; [intros -> ->; reflexivity|].
  split; [|split].
  - intros -> He Ha. rewrite He, Ha. simpl. split; [reflexivity|].
    destruct Hs as [Ht Hc Hp Hn He' Hr | ds Ht Hm' Hc Hd Hp Hn He'
         | e' x Ht Hm' Hc Ha' Hp Hn He' Hr | ds error x Ht Hm' Hc Hd Ha' Hp Hn He'
         | ds e' Ht He'' Hm' Hc Hd Hp Hn He']; try congruence.
  - intros -> -> ->. reflexivity.
  - intros Ht.
    destruct Hs as [Hb Hc Hp Hn He' Hr| | | |]; try congruence.
Qed.

Lemma connect_outcomes_witness :
  (alive (reached ser rawProtocal [OpStop]) = false /\
   fst (connect [OpStart] [] (reached ser rawProtocal [OpStop])) =
     Raises already_stopped) /\
  (alive (reached ser rawProtocal []) = true /\
   _connection_made (reached ser rawProtocal ([] ++ [OpWrite key_a])) = false /\
   fst (connect [OpWrite key_a] [] (reached ser rawProtocal [])) = Blocks) /\
  (alive (reached ser rawProtocal [OpStart]) = true /\
   _connection_made (reached ser rawProtocal ([OpStart] ++ [OpTick (ReadData [])])) = true /\
   alive (reached ser rawProtocal ([OpStart] ++ [OpTick (ReadData [])])) = true /\
   fst (connect [OpTick (ReadData [])] [] (reached ser rawProtocal [OpStart])) =
     Returns (Some rawProtocal)) /\
  (alive (reached ser refusing [OpStart]) = true /\
   _connection_made (reached ser refusing ([OpStart] ++ [OpTick (ReadData [])])) = true /\
   alive (reached ser refusing ([OpStart] ++ [OpTick (ReadData [])])) = false /\
   fst (connect [OpTick (ReadData [])] [] (reached ser refusing [OpStart])) =
     Raises connection_lost_already_called) /\
  (thread (reached ser rawProtocal ([] ++ [OpWrite key_a])) = Unstarted /\
   _connection_made (reached ser rawProtocal ([] ++ [OpWrite key_a])) = false).
Proof.
  split; [split; [reflexivity|]|split; [split; [reflexivity|split; [reflexivity|]]
    |split; [split; [reflexivity|split; [reflexivity|split; [reflexivity|]]]
    |split; [split; [reflexivity|split; [reflexivity|split; [reflexivity|]]]
    |split; [reflexivity|]]]]].
  - apply (proj1 (connect_outcomes ser rawProtocal [OpStop] [OpStart] [])).
    reflexivity.
  - apply (proj1 (proj2 (connect_outcomes ser rawProtocal [] [OpWrite key_a] [])));
      reflexivity.
  - apply (proj1 (proj2 (proj2 (connect_outcomes ser rawProtocal
                                  [OpStart] [OpTick (ReadData [])] []))));
      reflexivity.
  - apply (proj1 (proj2 (proj2 (proj2 (connect_outcomes ser refusing
                                         [OpStart] [OpTick (ReadData [])] [])))));
      reflexivity.
  - apply (proj2 (proj2 (proj2 (proj2 (connect_outcomes ser rawProtocal
                                         [] [OpWrite key_a] [])))));
      reflexivity.
Defined.




(** C4, as stated, fails: on a reader that was never started, [close]
    raises out of [join] and leaves the port open. *)
Lemma close_unstarted_raises :
  fst (close (init ser rawProtocal)) =
    Raises (RuntimeError "cannot join thread before it is started"%string) /\
  is_open (serial (snd (close (init ser rawProtocal)))) = true /\
  alive (snd (close (init ser rawProtocal))) = false /\
  _lock (snd (close (init ser rawProtocal))) = false.
Proof.
  split; [reflexivity|]. split; [reflexivity|]. split; reflexivity.
Qed.

(** C4, amended: with the lock free, [close] on a reader that has been
    started takes the lock, calls [stop], closes the port and releases the
    lock; it returns, leaving the flag down and the port closed; a second
    [close] right after it returns as well and leaves the port closed.
    While the lock is taken, [close] waits. *)
Theorem close_idempotent_once_started (st : ReaderThread) :
  (_lock st = true -> close st = (Blocks, st)) /\
  (_lock st = false -> thread st <> Unstarted ->
   close st =
     (Returns tt,
      set_lock false (snd (serial_close (snd (stop (set_lock true st)))))) /\
   alive (snd (close st)) = false /\
   is_open (serial (snd (close st))) = false /\
   _lock (snd (close st)) = false /\
   thread (snd (close st)) = thread st /\
   fst (close (snd (close st))) = Returns tt /\
   alive (snd (close (snd (close st)))) = false /\
   is_open (serial (snd (close (snd (close st))))) = false).
Proof.
  destruct st as [s f a l c p t cs n]. simpl. split.
  - intros ->. reflexivity.
  - intros -> Ht. unfold_methods. simpl.
    destruct (has_cancel_read s) eqn:Hc; simpl;
      destruct t; try congruence; simpl; rewrite ?Hc; simpl;
      repeat split; reflexivity.
Qed.

Lemma close_idempotent_once_started_witness :
  _lock (reached ser rawProtocal [OpStart; OpTick (ReadData [])]) = false /\
  thread (reached ser rawProtocal [OpStart; OpTick (ReadData [])]) <> Unstarted /\
  fst (close (reached ser rawProtocal [OpStart; OpTick (ReadData [])])) =
    Returns tt /\
  fst (close (snd (close (reached ser rawProtocal
                            [OpStart; OpTick (ReadData [])])))) = Returns tt /\
  is_open (serial (snd (close (snd (close (reached ser rawProtocal
                            [OpStart; OpTick (ReadData [])])))))) = false.
Proof.
  split; [reflexivity|]. split; [discriminate|].
  destruct (proj2 (close_idempotent_once_started
                     (reached ser rawProtocal [OpStart; OpTick (ReadData [])]))
              eq_refl ltac:(discriminate))
    as (E & _ & _ & _ & _ & R2 & _ & O2).
  split; [rewrite E; reflexivity|]. split; [exact R2|exact O2].
Defined.

(** C5: in every run, whenever [data_received] is called, [connection_made]
    has returned without raising before it, and [connection_lost] has not
    been called before it. *)
Theorem callbacks_ordered (port : Serial) (h : Protocol) (sched : list Op)
    (pre post : list Call) (data : bytes) (raised : option exn) :
  calls (reached port h sched) = pre ++ DataReceived data raised :: post ->
  In (ConnectionMade None) pre /\
  forall exc x, ~ In (ConnectionLost exc x) pre.
Proof.
  intros E.
  destruct (exec_Inv port h sched) as (_ & _ & Hs).
  fold (reached port h sched) in Hs.
  destruct (Shape_calls _ _ _ Hs) as [H|[(e & r & H)|(ds & tl & H & Hd & Htl)]];
    rewrite H in E.
  - destruct pre; discriminate.
  - exfalso.
    assert (I : In (DataReceived data raised)
                  [ConnectionMade (Some e); ConnectionLost (Some e) r]).
    { rewrite E. apply in_or_app. right. left. reflexivity. }
    simpl in I. destruct I as [I|[I|[]]]; discriminate.
  - destruct pre as [|p pre]; [discriminate|].
    simpl in E. injection E as <- E.
    assert (Hpre : Forall data_call pre).
    { apply (data_prefix ds tl pre post (DataReceived data raised)); auto.
      - intros x Hx Hdx. destruct Htl as [->|(error & r & ->)].
        + destruct Hx.
        + destruct Hx as [<-|[]]. exact Hdx.
      - assert (Hall : Forall data_call ds) by exact Hd.
        assert (I : In (DataReceived data raised) (ds ++ tl)).
        { rewrite E. apply in_or_app. right. left. reflexivity. }
        apply in_app_or in I. destruct I as [I|I].
        + rewrite Forall_forall in Hall. exact (Hall _ I).
        + exfalso. destruct Htl as [->|(error & r & ->)].
          * destruct I.
          * destruct I as [I|[]]. discriminate. }
    split; [left; reflexivity|].
    intros exc x [I|I]; [discriminate|].
    rewrite Forall_forall in Hpre. exact (Hpre _ I).
Qed.

Lemma callbacks_ordered_witness :
  let sched := [OpStart; OpTick (ReadData []); OpTick (ReadData key_a);
                OpStop; OpTick (ReadData [])] in
  calls (reached ser rawProtocal sched) =
    [ConnectionMade None] ++ DataReceived key_a None :: [ConnectionLost None None] /\
  In (ConnectionMade None) [ConnectionMade None] /\
  forall exc x, ~ In (ConnectionLost exc x) [ConnectionMade None].
Proof.
  split; [reflexivity|].
  apply (callbacks_ordered ser rawProtocal
           [OpStart; OpTick (ReadData []); OpTick (ReadData key_a);
            OpStop; OpTick (ReadData [])]
           [ConnectionMade None] [ConnectionLost None None] key_a None).
  reflexivity.
Defined.




(** C7, as stated, fails: after a failed [connection_made] the run is over
    and the handler is still referenced; so it is when [connection_lost]
    raises on the way out of the loop. *)
Lemma handler_still_referenced :
  (let st := reached ser refusing [OpStart; OpTick (ReadData [])] in
   thread st = Finished None /\
   calls st = [ConnectionMade (Some (OtherException 1));
               ConnectionLost (Some (OtherException 1)) None] /\
   protocol st = Some refusing) /\
  (let st := reached ser BaseProtocol
               [OpStart; OpTick (ReadData []);
                OpTick (ReadRaises (SerialException 0))] in
   thread st = Finished (Some (SerialException 0)) /\
   calls st = [ConnectionMade None;
               ConnectionLost (Some (SerialException 0))
                 (Some (SerialException 0))] /\
   protocol st = Some BaseProtocol).
Proof.
  split; (split; [reflexivity|split; reflexivity]).
Qed.

(** C7, amended: the factory is called exactly once per run, and not
    before the background run begins: until then no handler is referenced;
    while the loop runs the handler is the one the factory made; and when
    the loop has been entered and [run] has returned, the last call was a
    [connection_lost] that returned and the reference is dropped. *)
Theorem one_handler_per_run (port : Serial) (h : Protocol) (sched : list Op) :
  factory_calls (reached port h sched) <= 1 /\
  (thread (reached port h sched) = Unstarted \/
   thread (reached port h sched) = Started ->
   factory_calls (reached port h sched) = 0 /\
   protocol (reached port h sched) = None) /\
  (thread (reached port h sched) = InLoop ->
   factory_calls (reached port h sched) = 1 /\
   protocol (reached port h sched) = Some h) /\
  (forall esc, thread (reached port h sched) = Finished esc ->
   factory_calls (reached port h sched) = 1) /\
  (connection_made h = None ->
   thread (reached port h sched) = Finished None ->
   factory_calls (reached port h sched) = 1 /\
   protocol (reached port h sched) = None /\
   exists ds error,
     calls (reached port h sched) =
       ConnectionMade None :: ds ++ [ConnectionLost error None]).
Proof.
  destruct (exec_Inv port h sched) as (_ & _ & Hs).
  fold (reached port h sched) in Hs.
  destruct Hs as [Ht Hc Hp Hn He Hr | ds Ht Hm Hc Hd Hp Hn He
                 | e x Ht Hm Hc Ha Hp Hn He Hr | ds error x Ht Hm Hc Hd Ha Hp Hn He
                 | ds e Ht He' Hm Hc Hd Hp Hn He].
  - split; [lia|]. split; [auto|]. split; [|split].
    + intros H. destruct Ht; congruence.
    + intros esc H. destruct Ht; congruence.
    + intros _ H. destruct Ht; congruence.
  - split; [lia|]. split; [intros [H|H]; congruence|]. split; [auto|].
    split; [intros esc H; congruence|]. intros _ H. congruence.
  - split; [lia|]. split; [intros [H|H]; congruence|].
    split; [intros H; congruence|]. split; [intros; exact Hn|].
    intros H _. congruence.
  - split; [lia|]. split; [intros [H|H]; congruence|].
    split; [intros H; congruence|]. split; [intros; exact Hn|]. intros _ H.
    assert (x = None) by congruence. subst x. simpl in Hp. eauto.
  - split; [lia|]. split; [intros [H|H]; congruence|].
    split; [intros H; congruence|]. split; [intros; exact Hn|].
    intros _ H. congruence.
Qed.

Lemma one_handler_per_run_witness :
  let sched := [OpStart; OpTick (ReadData []); OpTick (ReadData key_a);
                OpStop; OpTick (ReadData [])] in
  connection_made rawProtocal = None /\
  thread (reached ser rawProtocal sched) = Finished None /\
  factory_calls (reached ser rawProtocal sched) = 1 /\
  protocol (reached ser rawProtocal sched) = None /\
  exists ds error,
    calls (reached ser rawProtocal sched) =
      ConnectionMade None :: ds ++ [ConnectionLost error None].
Proof.
  split; [reflexivity|]. split; [reflexivity|].
  apply (proj2 (proj2 (proj2 (proj2 (one_handler_per_run ser rawProtocal
           [OpStart; OpTick (ReadData []); OpTick (ReadData key_a);
            OpStop; OpTick (ReadData [])])))));
    reflexivity.
Defined.

(** C8: [data_received] is only ever called with a non-empty chunk; an
    iteration of the loop whose read returns nothing calls no handler method
    and goes back to the test of the loop. *)
Theorem empty_read_not_dispatched (port : Serial) (h : Protocol)
    (sched : list Op) :
  (forall data raised,
     In (DataReceived data raised) (calls (reached port h sched)) ->
     data <> []) /\
  (thread (reached port h sched) = InLoop ->
   alive (reached port h sched) = true ->
   is_open (serial (reached port h sched)) = true ->
   calls (thread_tick (ReadData []) (reached port h sched))
     = calls (reached port h sched) /\
   thread (thread_tick (ReadData []) (reached port h sched)) = InLoop).
Proof.
  split.
  - intros data raised I.
    destruct (exec_Inv port h sched) as (_ & _ & Hs).
    fold (reached port h sched) in Hs.
    destruct (Shape_calls _ _ _ Hs) as [H|[(e & r & H)|(ds & tl & H & Hd & Htl)]];
      rewrite H in I.
    + destruct I.
    + destruct I as [I|[I|[]]]; discriminate.
    + destruct I as [I|I]; [discriminate|].
      apply in_app_or in I. destruct I as [I|I].
      * rewrite Forall_forall in Hd. specialize (Hd _ I).
        destruct data; [contradiction|discriminate].
      * exfalso. destruct Htl as [->|(error & r & ->)].
        -- destruct I.
        -- destruct I as [I|[]]. discriminate.
  - intros Ht Ha Ho. rewrite (tick_empty_read _ Ht Ha Ho). split.
    + reflexivity.
    + exact Ht.
Qed.

Lemma empty_read_not_dispatched_witness :
  let sched := [OpStart; OpTick (ReadData []); OpTick (ReadData key_a)] in
  In (DataReceived key_a None) (calls (reached ser rawProtocal sched)) /\
  key_a <> [] /\
  thread (reached ser rawProtocal sched) = InLoop /\
  alive (reached ser rawProtocal sched) = true /\
  is_open (serial (reached ser rawProtocal sched)) = true /\
  calls (thread_tick (ReadData []) (reached ser rawProtocal sched))
    = calls (reached ser rawProtocal sched) /\
  thread (thread_tick (ReadData []) (reached ser rawProtocal sched)) = InLoop.
Proof.
  split; [right; left; reflexivity|].
  split.
  - apply (proj1 (empty_read_not_dispatched ser rawProtocal
                    [OpStart; OpTick (ReadData []); OpTick (ReadData key_a)])
             key_a None).
    right. left. reflexivity.
  - repeat (split; [reflexivity|]).
    apply (proj2 (empty_read_not_dispatched ser rawProtocal
                    [OpStart; OpTick (ReadData []); OpTick (ReadData key_a)]));
      reflexivity.
Defined.

(** C9: a read that fails with the port's own error class is recorded and
    handed to [connection_lost]; when, after a successful [connection_made],
    the read raises an exception of another class, that exception leaves
    [run]: [connection_lost] is not called, then or later, the flag is still
    up when [run] is left, and the handler stays referenced. *)
Theorem foreign_read_error_escapes (port : Serial) (h : Protocol)
    (sched : list Op) (e : exn) :
  thread (reached port h sched) = InLoop ->
  alive (reached port h sched) = true ->
  is_open (serial (reached port h sched)) = true ->
  (is_SerialException e = true ->
   calls (thread_tick (ReadRaises e) (reached port h sched)) =
     calls (reached port h sched) ++
       [ConnectionLost (Some e)
          (connection_lost h (calls (reached port h sched)) (Some e))]) /\
  (is_SerialException e = false ->
   thread (thread_tick (ReadRaises e) (reached port h sched)) = Finished (Some e) /\
   alive (thread_tick (ReadRaises e) (reached port h sched)) = true /\
   forall later,
     lost_calls (calls (exec later (thread_tick (ReadRaises e) (reached port h sched)))) = 0 /\
     protocol (exec later (thread_tick (ReadRaises e) (reached port h sched))) = Some h).
Proof.
  intros Ht Ha Ho.
  destruct (exec_Inv port h sched) as (_ & _ & Hs).
  fold (reached port h sched) in Hs.
  assert (Hp : protocol (reached port h sched) = Some h).
  { destruct Hs as [Hb| | | |]; try congruence. destruct Hb; congruence. }
  split; intros He.
  - apply (tick_read_stream_error _ h e Ht Ha Ho Hp He).
  - rewrite (tick_read_escapes _ e Ht Ha Ho He).
    split; [reflexivity|]. split; [exact Ha|].
    intros later.
    destruct (finished_exec_same later
                (set_thread (Finished (Some e))
                   (set_serial (Serial_count_read (serial (reached port h sched)))
                      (reached port h sched))) (Some e) eq_refl)
      as (_ & Ec & Ep & _).
    rewrite Ec, Ep. simpl. split; [|exact Hp].
    apply (Shape_running_lost _ _ _ Hs). rewrite Ht. discriminate.
Qed.

Lemma foreign_read_error_escapes_witness :
  let sched := [OpStart; OpTick (ReadData []); OpTick (ReadData key_a)] in
  let e := OtherException 0 in
  let e' := SerialException 0 in
  thread (reached ser rawProtocal sched) = InLoop /\
  alive (reached ser rawProtocal sched) = true /\
  is_open (serial (reached ser rawProtocal sched)) = true /\
  (is_SerialException e' = true /\
   calls (thread_tick (ReadRaises e') (reached ser rawProtocal sched)) =
     calls (reached ser rawProtocal sched) ++ [ConnectionLost (Some e') None]) /\
  is_SerialException e = false /\
  thread (thread_tick (ReadRaises e) (reached ser rawProtocal sched)) = Finished (Some e) /\
  alive (thread_tick (ReadRaises e) (reached ser rawProtocal sched)) = true /\
  forall later,
    lost_calls (calls (exec later (thread_tick (ReadRaises e) (reached ser rawProtocal sched)))) = 0 /\
    protocol (exec later (thread_tick (ReadRaises e) (reached ser rawProtocal sched))) = Some rawProtocal.
Proof.
  repeat (split; [reflexivity|]).
  split.
  - split; [reflexivity|].
    apply (proj1 (foreign_read_error_escapes ser rawProtocal
                    [OpStart; OpTick (ReadData []); OpTick (ReadData key_a)]
                    (SerialException 0) eq_refl eq_refl eq_refl)).
    reflexivity.
  - split; [reflexivity|].
    apply (proj2 (foreign_read_error_escapes ser rawProtocal
                    [OpStart; OpTick (ReadData []); OpTick (ReadData key_a)]
                    (OtherException 0) eq_refl eq_refl eq_refl)).
    reflexivity.
Defined.

(** C10: whatever the interleaving of the steps of writers, closers and the
    reader thread, at most one caller is inside [with self._lock]; while a
    write is under way the port is open; what has gone to the port is a
    sequence of whole chunks and closings, one for each call that has
    returned, in the order in which they had the lock, followed by what the
    one caller inside has done so far; and a call that raised has put
    nothing on the wire, a write raising only on a closed port. *)
Theorem write_close_exclusive (port : Serial) (h : Protocol)
    (before : list Op) (progs : nat -> Caller) (moves : list Move) :
  (forall i j,
     holds (pcs (contended port h before progs moves) i) = true ->
     holds (pcs (contended port h before progs moves) j) = true -> i = j) /\
  (forall i sent rest,
     pcs (contended port h before progs moves) i = Sending sent rest ->
     progs i = CallWrite (sent ++ rest) /\
     is_open (serial (obj (contended port h before progs moves))) = true) /\
  (exists order tail,
     NoDup order /\
     (forall i, In i order <->
                pcs (contended port h before progs moves) i = Done (Returns tt)) /\
     wire (contended port h before progs moves) =
       flat_map (block progs) order ++ tail /\
     (tail = [] \/
      exists i, holds (pcs (contended port h before progs moves) i) = true /\
                tail = pending progs i (pcs (contended port h before progs moves) i))) /\
  (forall i e,
     pcs (contended port h before progs moves) i = Done (Raises e) ->
     (forall b, ~ In (Sent i b) (wire (contended port h before progs moves))) /\
     (forall data, progs i = CallWrite data ->
        is_open (serial (obj (contended port h before progs moves))) = false)).
Proof.
  destruct (sys_exec_inv progs moves (boot (reached port h before)))
    as (order & Hnd & Hpc & Hl).
  { exists []. apply boot_inv.
    destruct (exec_Inv port h before) as (_ & Hlk & _). exact Hlk. }
  fold (contended port h before progs moves) in Hpc, Hl.
  set (sys := contended port h before progs moves) in *.
  assert (Hdone : forall i, In i order <-> pcs sys i = Done (Returns tt)).
  { intros i. apply (Hpc i). }
  split; [|split; [|split]].
  - intros i j Hi Hj.
    destruct (holder_is _ _ _ _ Hl Hi) as (_ & Huniq & _).
    symmetry. apply Huniq. exact Hj.
  - intros i sent rest Hi. destruct (Hpc i) as [_ Hf]. rewrite Hi in Hf. exact Hf.
  - destruct Hl as [(_ & _ & Hw)|(i & _ & Hh & _ & Hw)].
    + exists order, []. rewrite app_nil_r. auto.
    + exists order, (pending progs i (pcs sys i)). repeat split; auto.
      * apply Hdone.
      * apply Hdone.
      * right. exists i. auto.
  - intros i e Hi. split.
    + intros b Hin.
      assert (Hno : ~ In i order).
      { intros H. apply Hdone in H. congruence. }
      destruct Hl as [(_ & _ & Hw)|(i0 & _ & Hh & _ & Hw)]; rewrite Hw in Hin.
      * apply in_flat_map in Hin. destruct Hin as (j & Hj & Hb).
        apply block_tag in Hb. subst j. contradiction.
      * apply in_app_or in Hin. destruct Hin as [Hin|Hin].
        -- apply in_flat_map in Hin. destruct Hin as (j & Hj & Hb).
           apply block_tag in Hb. subst j. contradiction.
        -- apply pending_tag in Hin. subst i0. rewrite Hi in Hh. discriminate.
    + intros data Hp. destruct (Hpc i) as [_ Hf]. rewrite Hi in Hf.
      simpl in Hf. apply (Hf data Hp).
Qed.

Lemma write_close_exclusive_witness :
  let moves := [ByCaller 2; ByCaller 1; ByCaller 2; ByReader (ReadData []);
                ByCaller 0; ByCaller 2; ByCaller 2; ByCaller 1; ByCaller 2;
                ByCaller 2; ByCaller 1; ByCaller 1; ByCaller 0; ByCaller 1;
                ByCaller 1; ByCaller 0; ByCaller 0; ByCaller 0] in
  pcs (contended ser rawProtocal [OpStart] two_writers_one_closer moves) 0 =
    Done (Raises (SerialException 0)) /\
  wire (contended ser rawProtocal [OpStart] two_writers_one_closer moves) =
    [Sent 2 Byte.x62; Sent 2 Byte.x63; PortClosed 1] /\
  (forall b,
     ~ In (Sent 0 b)
         (wire (contended ser rawProtocal [OpStart] two_writers_one_closer moves))) /\
  is_open (serial (obj (contended ser rawProtocal [OpStart]
                          two_writers_one_closer moves))) = false.
Proof.
  split; [reflexivity|]. split; [reflexivity|].
  destruct (proj2 (proj2 (proj2
              (write_close_exclusive ser rawProtocal [OpStart]
                 two_writers_one_closer
                 [ByCaller 2; ByCaller 1; ByCaller 2; ByReader (ReadData []);
                  ByCaller 0; ByCaller 2; ByCaller 2; ByCaller 1; ByCaller 2;
                  ByCaller 2; ByCaller 1; ByCaller 1; ByCaller 0; ByCaller 1;
                  ByCaller 1; ByCaller 0; ByCaller 0; ByCaller 0])))
              0 (SerialException 0) eq_refl) as [Hw Ho].
  split; [exact Hw|]. exact (Ho key_a eq_refl).
Defined.

(** * Part VI: further properties of the code *)

(** ** Helpers *)

Lemma start_when_started (st : ReaderThread) :
  thread st <> Unstarted -> snd (start st) = st.
Proof.
  intros Ht. unfold start, bind, gets.
  destruct (thread st); try reflexivity. congruence.
Qed.

Lemma caller_op_same_reader (op : Op) (st : ReaderThread) :
  caller_op op -> thread st <> Unstarted -> same_reader st (step op st).
Proof.
  intros Hop Ht. destruct op; simpl in Hop; try contradiction; unfold step;
    auto with frame.
  rewrite (start_when_started st Ht). apply same_reader_refl.
Qed.




Lemma stop_keeps_reads (st : ReaderThread) :
  read_calls (serial (snd (stop st))) = read_calls (serial st).
Proof. destruct (stop_same_reader st) as (_ & _ & _ & _ & _ & _ & H & _). exact H. Qed.



(** ** stop and close end the run without an error *)



(** ** Which error reaches connection_lost *)

Lemma tick_Hist (port : Serial) (h : Protocol) (r : ReadResult)
    (st : ReaderThread) :
  Inv port h st -> Hist (calls st) -> Hist (calls (thread_tick r st)).
Proof.
  intros (If & Il & Is) HH.
  destruct st as [s f a l c p t cs n]. simpl in *. subst f l.
  destruct Is as [Ht Hc Hp Hn He Hr | ds Ht Hm Hc Hd Hp Hn He
                 | e x Ht Hm Hc Ha Hp Hn He Hr | ds error x Ht Hm Hc Hd Ha Hp Hn He
                 | ds e Ht He' Hm Hc Hd Hp Hn He]; simpl in *; subst;
    try (unfold thread_tick; simpl; exact HH).
  - destruct Ht as [Ht|Ht]; subst t; [unfold thread_tick; simpl; exact HH|].
    unfold_methods. simpl.
    destruct (has_cancel_read s); simpl;
      (destruct (connection_made h) as [e|]; simpl;
       [destruct (connection_lost h [ConnectionMade (Some e)] (Some e)); simpl|]);
      first [apply HistFailed | apply (HistOpen []); constructor].
  - unfold_methods. simpl.
    destruct a; simpl; [destruct (is_open s); simpl|].
    + destruct r as [[|b data]|e]; simpl.
      * exact HH.
      * destruct (data_received h (ConnectionMade None :: ds) (b :: data))
          as [e|]; simpl.
        -- destruct (connection_lost h
                       (ConnectionMade None :: ds ++
                          [DataReceived (b :: data) (Some e)]) (Some e)); simpl;
             rewrite <- app_assoc; apply HistHandlerError; exact Hd.
        -- apply (HistOpen (ds ++ [DataReceived (b :: data) None])).
           apply Forall_app; split; [exact Hd|repeat constructor].
      * destruct (is_SerialException e) eqn:Hse; simpl.
        -- destruct (connection_lost h (ConnectionMade None :: ds) (Some e));
             simpl; apply HistPortError; assumption.
        -- exact HH.
    + destruct (connection_lost h (ConnectionMade None :: ds) None); simpl;
        apply HistStopped; exact Hd.
    + destruct (connection_lost h (ConnectionMade None :: ds) None); simpl;
        apply HistStopped; exact Hd.
Qed.

Lemma step_calls_by_tick (op : Op) (st : ReaderThread) :
  caller_op op -> calls (step op st) = calls st.
Proof.
  intros Hop. destruct op; simpl in Hop; try contradiction; unfold step.
  - unfold start, bind, gets, modify, raise. destruct (thread st); reflexivity.
  - destruct (stop_same_reader st) as (_ & H & _). exact H.
  - destruct (close_same_reader st) as (_ & H & _). exact H.
  - destruct (write_same_reader data st) as (_ & H & _). exact H.
  - reflexivity.
  - destruct (port_closed_same_reader st) as (_ & H & _). exact H.
Qed.

Lemma reached_Hist (port : Serial) (h : Protocol) (sched : list Op) :
  Hist (calls (reached port h sched)).
Proof.
  assert (P : Inv port h (reached port h sched) /\
              Hist (calls (reached port h sched))).
  { apply (exec_invariant_all (fun st => Inv port h st /\ Hist (calls st))).
    - intros op st [HI HH]. split; [apply step_Inv; exact HI|].
      destruct op; try (rewrite step_calls_by_tick; [exact HH|exact I]).
      apply (tick_Hist port h); assumption.
    - split; [apply init_Inv|constructor]. }
  exact (proj2 P).
Qed.






(** ** The settings of the port *)

Lemma caller_op_port_settings (op : Op) (st : ReaderThread) :
  caller_op op ->
  has_cancel_read (serial (step op st)) = has_cancel_read (serial st) /\
  timeout (serial (step op st)) = timeout (serial st) /\
  run_begun (thread (step op st)) = run_begun (thread st).
Proof.
  intros Hop. destruct st as [s f a l c p t cs n].
  destruct op; simpl in Hop; try contradiction; unfold_methods; simpl.
  - destruct t; simpl; auto.
  - destruct (has_cancel_read s) eqn:Hc; destruct t; simpl; rewrite ?Hc; auto.
  - destruct l; simpl; auto.
    destruct (has_cancel_read s) eqn:Hc; destruct t; simpl; rewrite ?Hc; auto.
  - destruct l; simpl; auto. destruct (is_open s); simpl; auto.
  - auto.
  - auto.
Qed.

Lemma tick_port_settings (r : ReadResult) (st : ReaderThread) :
  has_cancel_read (serial (thread_tick r st)) = has_cancel_read (serial st) /\
  timeout (serial (thread_tick r st)) =
    match thread st with
    | Started => if has_cancel_read (serial st) then timeout (serial st) else Some 1
    | _ => timeout (serial st)
    end /\
  run_begun (thread (thread_tick r st)) =
    match thread st with
    | Unstarted => false
    | _ => true
    end /\
  written (serial (thread_tick r st)) = written (serial st).
Proof.
  destruct st as [s f a l c p t cs n].
  destruct t; unfold_methods; simpl; auto.
  - destruct (has_cancel_read s) eqn:Hc; simpl;
      (destruct (connection_made f); simpl;
       [destruct (connection_lost f _ _); simpl; rewrite ?Hc; auto
       |rewrite ?Hc; auto]).
  - destruct a; simpl; [destruct (is_open s) eqn:Ho; simpl|].
    + destruct r as [[|b data]|e]; simpl; auto.
      * destruct p as [h|]; simpl; auto.
        destruct (data_received h cs (b :: data)); simpl; auto.
        destruct (connection_lost h _ _); simpl; auto.
      * destruct (is_SerialException e); simpl; auto.
        destruct p as [h|]; simpl; auto.
        destruct (connection_lost h _ _); simpl; auto.
    + destruct p as [h|]; simpl; auto.
      destruct (connection_lost h _ _); simpl; auto.
    + destruct p as [h|]; simpl; auto.
      destruct (connection_lost h _ _); simpl; auto.
Qed.

(** X3: nothing in the class touches the port's timeout, except the entry
    of [run], which sets it to 1 exactly when the port has no [cancel_read]:
    with [cancel_read], or as long as the run has not begun, the timeout is
    the one the port was given. *)
Theorem timeout_set_by_run_only (port : Serial) (h : Protocol)
    (sched : list Op) :
  has_cancel_read (serial (reached port h sched)) = has_cancel_read port /\
  timeout (serial (reached port h sched)) =
    if has_cancel_read port || negb (run_begun (thread (reached port h sched)))
    then timeout port
    else Some 1.
Proof.
  apply (exec_invariant_all
           (fun st =>
              has_cancel_read (serial st) = has_cancel_read port /\
              timeout (serial st) =
                if has_cancel_read port || negb (run_begun (thread st))
                then timeout port else Some 1)).
  - intros op st [Hc Ht].
    assert (Hcases : caller_op op \/ exists r, op = OpTick r).
    { destruct op; simpl; eauto. }
    destruct Hcases as [Hop|[r ->]].
    + destruct (caller_op_port_settings op st Hop) as (E1 & E2 & E3).
      rewrite E1, E2, E3. auto.
    + unfold step.
      destruct (tick_port_settings r st) as (E1 & E2 & E3 & _).
      rewrite E1, E2, E3, Hc. split; [reflexivity|].
      rewrite Ht. destruct (thread st); simpl;
        destruct (has_cancel_read port); simpl; auto.
  - simpl. rewrite orb_true_r. auto.
Qed.

(** ** What is written to the port *)

Lemma step_open_writes (op : Op) (st : ReaderThread) :
  is_open (serial st) = true -> _lock st = false -> keeps_open op ->
  is_open (serial (step op st)) = true /\
  _lock (step op st) = false /\
  written (serial (step op st)) = written (serial st) ++ writes_of [op].
Proof.
  intros Ho Hl Hop. destruct op; simpl in Hop; try contradiction;
    unfold step, writes_of; simpl; rewrite ?app_nil_r.
  - unfold start, bind, gets, modify, raise.
    destruct (thread st); simpl; auto.
  - destruct (tick_keeps_lock_port r st) as [Tl To].
    destruct (tick_port_settings r st) as (_ & _ & _ & Tw).
    rewrite Tl, To, Tw. auto.
  - destruct (stop_keeps_lock_port st) as [Sl So]. rewrite Sl, So.
    repeat split; auto.
    destruct st as [s f a l c p t cs n]. unfold_methods. simpl.
    destruct (has_cancel_read s); destruct t; reflexivity.
  - destruct st as [s f a l c p t cs n]. simpl in *. subst.
    unfold_methods. simpl. rewrite Ho. simpl. rewrite Ho. auto.
  - auto.
Qed.

Lemma writes_of_cons (op : Op) (sched : list Op) :
  writes_of (op :: sched) = writes_of [op] ++ writes_of sched.
Proof. unfold writes_of. simpl. rewrite app_nil_r. reflexivity. Qed.

Lemma exec_open_writes (sched : list Op) :
  forall st,
    is_open (serial st) = true -> _lock st = false ->
    Forall keeps_open sched ->
    is_open (serial (exec sched st)) = true /\
    written (serial (exec sched st)) = written (serial st) ++ writes_of sched.
Proof.
  induction sched as [|op sched IH]; intros st Ho Hl Hall.
  - simpl. rewrite app_nil_r. auto.
  - inversion Hall as [|? ? Hop Hrest]; subst. rewrite exec_cons.
    destruct (step_open_writes op st Ho Hl Hop) as (Ho' & Hl' & Hw).
    destruct (IH (step op st) Ho' Hl' Hrest) as (Ho'' & Hw'').
    split; [exact Ho''|].
    rewrite Hw'', Hw, (writes_of_cons op sched), <- app_assoc. reflexivity.
Qed.

(** X4: as long as nobody closes the port, every [write] returns, and what
    has been written to the port is what it held before followed by the
    chunks of the [write] calls, whole and in the order of the calls; the
    reader loop, [stop], [start] and [connect] add nothing to it. *)
Theorem writes_reach_port_in_order (port : Serial) (h : Protocol)
    (sched : list Op) (data : bytes) :
  is_open port = true ->
  Forall keeps_open sched ->
  written (serial (reached port h sched)) = written port ++ writes_of sched /\
  fst (write data (reached port h sched)) = Returns tt /\
  written (serial (snd (write data (reached port h sched)))) =
    written port ++ writes_of sched ++ [data].
Proof.
  intros Ho Hall.
  destruct (exec_open_writes sched (init port h) Ho eq_refl Hall) as [Ho' Hw].
  fold (reached port h sched) in Ho', Hw. simpl in Hw.
  destruct (exec_Inv port h sched) as (_ & Hl & _).
  fold (reached port h sched) in Hl.
  split; [exact Hw|].
  destruct (reached port h sched) as [s f a l c p t cs n]. simpl in *. subst l.
  unfold_methods. simpl. rewrite Ho'. simpl. rewrite Hw, <- app_assoc. auto.
Qed.

Lemma writes_reach_port_in_order_witness :
  let sched := [OpWrite key_a; OpStart; OpTick (ReadData []);
                OpWrite [Byte.x62]; OpTick (ReadData key_a); OpStop;
                OpWrite [Byte.x63]] in
  is_open ser = true /\
  Forall keeps_open sched /\
  written (serial (reached ser rawProtocal sched)) =
    [key_a; [Byte.x62]; [Byte.x63]] /\
  fst (write [Byte.x64] (reached ser rawProtocal sched)) = Returns tt.
Proof.
  split; [reflexivity|]. split; [repeat constructor|].
  destruct (writes_reach_port_in_order ser rawProtocal
              [OpWrite key_a; OpStart; OpTick (ReadData []);
               OpWrite [Byte.x62]; OpTick (ReadData key_a); OpStop;
               OpWrite [Byte.x63]] [Byte.x64]
              eq_refl ltac:(repeat constructor)) as (Hw & Hr & _).
  split; [exact Hw|exact Hr].
Defined.

Lemma step_keeps_closed (op : Op) (st : ReaderThread) :
  is_open (serial st) = false ->
  is_open (serial (step op st)) = false /\
  written (serial (step op st)) = written (serial st).
Proof.
  intros Ho. destruct op; unfold step.
  - unfold start, bind, gets, modify, raise.
    destruct (thread st); simpl; auto.
  - destruct (tick_keeps_lock_port r st) as [_ To].
    destruct (tick_port_settings r st) as (_ & _ & _ & Tw).
    rewrite To, Tw. auto.
  - destruct st as [s f a l c p t cs n]. simpl in *. unfold_methods. simpl.
    destruct (has_cancel_read s); destruct t; simpl; auto.
  - destruct st as [s f a l c p t cs n]. simpl in *. unfold_methods. simpl.
    destruct l; simpl; auto.
    destruct (has_cancel_read s); destruct t; simpl; auto.
  - destruct st as [s f a l c p t cs n]. simpl in *. unfold_methods. simpl.
    destruct l; simpl; auto. rewrite Ho. simpl. auto.
  - auto.
  - destruct st as [s f a l c p t cs n]. simpl in *. auto.
Qed.

(** X5: once the port is closed, by [close] or by its owner, nothing in the
    class opens it again: it stays closed whatever is called, nothing more
    is written to it, and every later [write] raises the port's error. *)
Theorem closed_port_refuses_writes (port : Serial) (h : Protocol)
    (sched later : list Op) (data : bytes) :
  is_open (serial (reached port h sched)) = false ->
  is_open (serial (reached port h (sched ++ later))) = false /\
  written (serial (reached port h (sched ++ later))) =
    written (serial (reached port h sched)) /\
  fst (write data (reached port h (sched ++ later))) = Raises (SerialException 0) /\
  _lock (snd (write data (reached port h (sched ++ later)))) = false.
Proof.
  intros Ho.
  assert (P : is_open (serial (exec later (reached port h sched))) = false /\
              written (serial (exec later (reached port h sched))) =
                written (serial (reached port h sched))).
  { apply (exec_invariant_all
             (fun st => is_open (serial st) = false /\
                        written (serial st) =
                          written (serial (reached port h sched)))); auto.
    intros op st [H1 H2]. destruct (step_keeps_closed op st H1) as [H3 H4].
    split; [exact H3|congruence]. }
  rewrite reached_app. destruct P as [P1 P2].
  split; [exact P1|]. split; [exact P2|].
  pose proof (exec_Inv port h (sched ++ later)) as (_ & Hl & _).
  fold (reached port h (sched ++ later)) in Hl. rewrite reached_app in Hl.
  destruct (exec later (reached port h sched)) as [s f a l c p t cs n].
  simpl in *. subst l. unfold_methods. simpl. rewrite P1. simpl. auto.
Qed.

Lemma closed_port_refuses_writes_witness :
  let sched := [OpStart; OpTick (ReadData []); OpWrite key_a; OpClose] in
  let later := [OpTick (ReadData []); OpWrite [Byte.x62]; OpStart] in
  is_open (serial (reached ser rawProtocal sched)) = false /\
  written (serial (reached ser rawProtocal (sched ++ later))) = [key_a] /\
  fst (write [Byte.x63] (reached ser rawProtocal (sched ++ later))) =
    Raises (SerialException 0).
Proof.
  split; [reflexivity|].
  destruct (closed_port_refuses_writes ser rawProtocal
              [OpStart; OpTick (ReadData []); OpWrite key_a; OpClose]
              [OpTick (ReadData []); OpWrite [Byte.x62]; OpStart]
              [Byte.x63] eq_refl) as (_ & Hw & Hr & _).
  split; [exact Hw|exact Hr].
Defined.

(** ** The reader in a with statement *)

Lemma step_keeps_started (op : Op) (st : ReaderThread) :
  thread st <> Unstarted -> thread (step op st) <> Unstarted.
Proof.
  intros Ht.
  assert (Hcases : caller_op op \/ exists r, op = OpTick r).
  { destruct op; simpl; eauto. }
  destruct Hcases as [Hop|[r ->]].
  - destruct (caller_op_same_reader op st Hop Ht) as (E & _). congruence.
  - unfold step. destruct (tick_port_settings r st) as (_ & _ & E & _).
    intros H. rewrite H in E. destruct (thread st); simpl in E; congruence.
Qed.

Lemma exec_keeps_started (sched : list Op) (st : ReaderThread) :
  thread st <> Unstarted -> thread (exec sched st) <> Unstarted.
Proof.
  apply (exec_invariant_all (fun s => thread s <> Unstarted)).
  intros; apply step_keeps_started; assumption.
Qed.

Lemma close_when_started (st : ReaderThread) :
  _lock st = false -> thread st <> Unstarted ->
  fst (close st) = Returns tt /\
  is_open (serial (snd (close st))) = false /\
  alive (snd (close st)) = false /\
  _lock (snd (close st)) = false.
Proof.
  destruct st as [s f a l c p t cs n]. simpl. intros -> Ht.
  unfold_methods. simpl.
  destruct (has_cancel_read s); destruct t; try congruence; simpl; auto.
Qed.

Lemma start_fresh (port : Serial) (h : Protocol) :
  start (init port h) = (Returns tt, reached port h [OpStart]).
Proof. reflexivity. Qed.

(** The reader entered and the block left after [body]. *)
Lemma with_block_closes (port : Serial) (h : Protocol)
    (during between body : list Op) (left_by : option exn) :
  _connection_made (reached port h (OpStart :: during)) = true ->
  alive (reached port h (OpStart :: during)) = true ->
  fst (with_ReaderThread during between (Some (body, left_by)) (init port h)) =
    match left_by with None => Returns tt | Some e => Raises e end /\
  is_open (serial (snd (with_ReaderThread during between
                          (Some (body, left_by)) (init port h)))) = false /\
  alive (snd (with_ReaderThread during between (Some (body, left_by))
                (init port h))) = false /\
  _lock (snd (with_ReaderThread during between (Some (body, left_by))
                (init port h))) = false.
Proof.
  intros He Ha.
  unfold with_ReaderThread, __enter__. rewrite start_fresh.
  change (exec during (reached port h [OpStart]))
    with (reached port h (OpStart :: during)).
  rewrite He, Ha. simpl negb. cbv iota.
  set (st2 := exec body (exec between (reached port h (OpStart :: during)))).
  assert (Hl : _lock st2 = false).
  { unfold st2. rewrite <- !reached_app.
    destruct (exec_Inv port h (((OpStart :: during) ++ between) ++ body))
      as (_ & Hl & _). exact Hl. }
  assert (Ht : thread st2 <> Unstarted).
  { unfold st2. rewrite <- !reached_app.
    change (((OpStart :: during) ++ between) ++ body)
      with ([OpStart] ++ ((during ++ between) ++ body)).
    rewrite reached_app. apply exec_keeps_started. discriminate. }
  destruct (close_when_started st2 Hl Ht) as (Hr & Ho & Hal & Hlk).
  unfold __exit__. destruct (close st2) as [[[]|e|] st3]; simpl in *;
    try discriminate.
  auto.
Qed.

(** X6: when [__enter__] has returned, the [with] statement closes the
    port on every way out of its block, by the end of the block or by an
    exception, which then goes on: afterwards the flag is down, the port is
    closed and the lock is free. *)
Theorem with_closes_on_every_exit (port : Serial) (h : Protocol)
    (during between body : list Op) (left_by : option exn) :
  _connection_made (reached port h (OpStart :: during)) = true ->
  alive (reached port h (OpStart :: during)) = true ->
  fst (__enter__ during between (init port h)) =
    Returns (protocol (reached port h ((OpStart :: during) ++ between))) /\
  fst (with_ReaderThread during between (Some (body, left_by)) (init port h)) =
    match left_by with None => Returns tt | Some e => Raises e end /\
  is_open (serial (snd (with_ReaderThread during between
                          (Some (body, left_by)) (init port h)))) = false /\
  alive (snd (with_ReaderThread during between (Some (body, left_by))
                (init port h))) = false /\
  _lock (snd (with_ReaderThread during between (Some (body, left_by))
                (init port h))) = false.
Proof.
  intros He Ha. split.
  - unfold __enter__. rewrite start_fresh.
    change (exec during (reached port h [OpStart]))
      with (reached port h (OpStart :: during)).
    rewrite He, Ha, reached_app. reflexivity.
  - apply with_block_closes; assumption.
Qed.

Lemma with_closes_on_every_exit_witness :
  _connection_made (reached ser rawProtocal
                      (OpStart :: [OpTick (ReadData [])])) = true /\
  alive (reached ser rawProtocal (OpStart :: [OpTick (ReadData [])])) = true /\
  fst (with_ReaderThread [OpTick (ReadData [])] []
         (Some ([OpTick (ReadData key_a); OpWrite key_a],
                Some (OtherException 3))) (init ser rawProtocal)) =
    Raises (OtherException 3) /\
  is_open (serial (snd (with_ReaderThread [OpTick (ReadData [])] []
                          (Some ([OpTick (ReadData key_a); OpWrite key_a],
                                 Some (OtherException 3)))
                          (init ser rawProtocal)))) = false.
Proof.
  split; [reflexivity|]. split; [reflexivity|].
  destruct (with_closes_on_every_exit ser rawProtocal
              [OpTick (ReadData [])] []
              [OpTick (ReadData key_a); OpWrite key_a]
              (Some (OtherException 3)) eq_refl eq_refl) as (_ & Hr & Ho & _).
  split; [exact Hr|exact Ho].
Defined.

(** X7: when the flag is down by the time the event is set, because
    [connection_made] raised or [stop] came first, [__enter__] raises
    'connection_lost already called' and [__exit__] is not run: the reader
    is left as it was at that moment, and the port open if nobody else
    closed it. *)
Theorem with_failed_enter_skips_close (port : Serial) (h : Protocol)
    (during between : list Op) (block : option (list Op * option exn)) :
  _connection_made (reached port h (OpStart :: during)) = true ->
  alive (reached port h (OpStart :: during)) = false ->
  with_ReaderThread during between block (init port h) =
    (Raises connection_lost_already_called,
     reached port h (OpStart :: during)) /\
  (is_open port = true -> Forall keeps_open during ->
   is_open (serial (reached port h (OpStart :: during))) = true).
Proof.
  intros He Ha. split.
  - unfold with_ReaderThread, __enter__. rewrite start_fresh.
    change (exec during (reached port h [OpStart]))
      with (reached port h (OpStart :: during)).
    rewrite He, Ha. reflexivity.
  - intros Ho Hall.
    destruct (exec_open_writes (OpStart :: during) (init port h) Ho eq_refl)
      as [H _]; [constructor; [exact I|exact Hall]|exact H].
Qed.

Lemma with_failed_enter_skips_close_witness :
  _connection_made (reached ser refusing (OpStart :: [OpTick (ReadData [])]))
    = true /\
  alive (reached ser refusing (OpStart :: [OpTick (ReadData [])])) = false /\
  fst (with_ReaderThread [OpTick (ReadData [])] []
         (Some ([OpWrite key_a], None)) (init ser refusing)) =
    Raises connection_lost_already_called /\
  is_open (serial (reached ser refusing (OpStart :: [OpTick (ReadData [])])))
    = true.
Proof.
  split; [reflexivity|]. split; [reflexivity|].
  destruct (with_failed_enter_skips_close ser refusing
              [OpTick (ReadData [])] [] (Some ([OpWrite key_a], None))
              eq_refl eq_refl) as (Hw & Ho).
  split; [rewrite Hw; reflexivity|].
  apply Ho; [reflexivity|repeat constructor].
Defined.

(** What the run that failed to start ends with. *)
Lemma tick_failed_start (port : Serial) (h : Protocol) (e : exn)
    (r : ReadResult) (st : ReaderThread) (esc : option exn) :
  Inv port h st -> connection_made h = Some e ->
  (forall x, thread st <> Finished x) ->
  thread (thread_tick r st) = Finished esc ->
  esc = connection_lost h [ConnectionMade (Some e)] (Some e).
Proof.
  intros (If & Il & Is) Hm Hnf.
  destruct st as [s f a l c p t cs n]. simpl in *. subst f l.
  destruct Is as [Ht Hc Hp Hn He Hr | ds Ht Hm' Hc Hd Hp Hn He
                 | e' x Ht Hm' Hc Ha Hp Hn He Hr | ds error x Ht Hm' Hc Hd Ha Hp Hn He
                 | ds e' Ht He' Hm' Hc Hd Hp Hn He]; simpl in *; subst;
    try congruence; try (exfalso; eapply Hnf; reflexivity).
  destruct Ht as [Ht|Ht]; subst t.
  - unfold thread_tick; simpl. discriminate.
  - unfold_methods. simpl.
    destruct (has_cancel_read s); simpl; rewrite Hm; simpl;
      destruct (connection_lost h [ConnectionMade (Some e)] (Some e)); simpl;
      congruence.
Qed.

Lemma failed_start_result (port : Serial) (h : Protocol) (e : exn)
    (sched : list Op) (esc : option exn) :
  connection_made h = Some e ->
  thread (reached port h sched) = Finished esc ->
  esc = connection_lost h [ConnectionMade (Some e)] (Some e).
Proof.
  intros Hm.
  assert (P : Inv port h (reached port h sched) /\
              forall x, thread (reached port h sched) = Finished x ->
                        x = connection_lost h [ConnectionMade (Some e)] (Some e)).
  { apply (exec_invariant_all
             (fun st => Inv port h st /\
                forall x, thread st = Finished x ->
                  x = connection_lost h [ConnectionMade (Some e)] (Some e))).
    - intros op st [HI HF]. split; [apply step_Inv; exact HI|].
      intros x Hx.
      destruct (thread st) as [| | |y] eqn:Ht.
      4: { destruct (finished_step_same op st y Ht) as (Et & _).
           apply HF. congruence. }
      all: destruct (step_finishes_by_tick op st x) as [r ->];
        [rewrite Ht; discriminate|exact Hx|].
      all: apply (tick_failed_start port h e r st x HI Hm);
        [rewrite Ht; discriminate|exact Hx].
    - split; [apply init_Inv|]. simpl. discriminate. }
  intros Hf. exact (proj2 P esc Hf).
Qed.

(** X8: with a handler whose [connection_made] raises and whose
    [connection_lost] raises in turn, as the base class's does, the event is
    never set: [__enter__], and so the [with] statement, never returns and
    never raises, whatever happens meanwhile. *)
Theorem with_hangs_when_connection_lost_reraises (port : Serial)
    (h : Protocol) (e : exn) (during between : list Op)
    (block : option (list Op * option exn)) :
  connection_made h = Some e ->
  connection_lost h [ConnectionMade (Some e)] (Some e) <> None ->
  _connection_made (reached port h (OpStart :: during)) = false /\
  fst (__enter__ during between (init port h)) = Blocks /\
  fst (with_ReaderThread during between block (init port h)) = Blocks.
Proof.
  intros Hm Hl.
  assert (He : _connection_made (reached port h (OpStart :: during)) = false).
  { destruct (reached_Shape port h (OpStart :: during))
      as [Ht Hc Hp Hn He Hr | ds Ht Hm' Hc Hd Hp Hn He
         | e' x Ht Hm' Hc Ha Hp Hn He Hr | ds error x Ht Hm' Hc Hd Ha Hp Hn He
         | ds e' Ht He' Hm' Hc Hd Hp Hn He]; try congruence.
    rewrite He.
    rewrite (failed_start_result port h e _ x Hm Ht) in *.
    destruct (connection_lost h [ConnectionMade (Some e)] (Some e));
      [reflexivity|congruence]. }
  split; [exact He|].
  unfold with_ReaderThread, __enter__. rewrite start_fresh.
  change (exec during (reached port h [OpStart]))
    with (reached port h (OpStart :: during)).
  rewrite He. auto.
Qed.

Lemma with_hangs_when_connection_lost_reraises_witness :
  connection_made refusing_inherited = Some (OtherException 1) /\
  connection_lost refusing_inherited
    [ConnectionMade (Some (OtherException 1))] (Some (OtherException 1))
    <> None /\
  fst (with_ReaderThread [OpTick (ReadData []); OpTick (ReadData key_a)] []
         (Some ([OpWrite key_a], None)) (init ser refusing_inherited)) = Blocks.
Proof.
  split; [reflexivity|]. split; [discriminate|].
  apply (with_hangs_when_connection_lost_reraises ser refusing_inherited
           (OtherException 1)
           [OpTick (ReadData []); OpTick (ReadData key_a)] []
           (Some ([OpWrite key_a], None)) eq_refl).
  discriminate.
Defined.

(** ** The key map and the handler of the script *)

Lemma bytes_eqb_eq (a b : bytes) : bytes_eqb a b = true <-> a = b.
Proof.
  revert b. induction a as [|x a IH]; intros [|y b]; simpl;
    try (split; [discriminate|discriminate]); [tauto|].
  rewrite andb_true_iff, IH. split.
  - intros [Hx ->]. apply Byte.byte_dec_bl in Hx. congruence.
  - intros E. injection E as -> ->. split; [|reflexivity].
    apply Byte.byte_dec_lb. reflexivity.
Qed.

Lemma dict_get_In {V : Type} (d : list (bytes * V)) (key : bytes) (v : V) :
  dict_get d key = Some v -> In (key, v) d.
Proof.
  induction d as [|[k w] d IH]; simpl; [discriminate|].
  destruct (bytes_eqb k key) eqn:E.
  - intros H. injection H as ->. apply bytes_eqb_eq in E. subst. left. reflexivity.
  - intros H. right. apply IH. exact H.
Qed.

Lemma Keymap_circle (data : bytes) (key : nat) (name : string) :
  dict_get Keymap data = Some (key, name) ->
  List.length data = 1 /\
  Nat.eqb key KEY_CIRCLE = bytes_eqb data [Byte.x6a].
Proof.
  intros H. apply dict_get_In in H. unfold Keymap in H. simpl in H.
  repeat (destruct H as [H|H];
          [injection H as <- <- _; split; reflexivity|]).
  destruct H.
Qed.

Lemma Keymap_has_circle : dict_get Keymap [Byte.x6a] = Some (KEY_CIRCLE, "KEY_CIRCLE"%string).
Proof. reflexivity. Qed.

Lemma data_received_effect (data : bytes) (o : rawProtocal_object) :
  (List.length data <> 1 ->
   rawProtocal_data_received data o =
     {| transport := transport o; running := running o;
        printed := printed o ++ [PrintUnknown data] |}) /\
  running (rawProtocal_data_received data o) =
    (if bytes_eqb data [Byte.x6a] then Some false else running o) /\
  transport (rawProtocal_data_received data o) = transport o.
Proof.
  unfold rawProtocal_data_received.
  destruct (dict_get Keymap data) as [[key name]|] eqn:E.
  - destruct (Keymap_circle data key name E) as [Hlen Hkey].
    split; [intros H; contradiction|]. simpl. rewrite Hkey. auto.
  - split; [reflexivity|]. simpl. split; [|reflexivity].
    destruct (bytes_eqb data [Byte.x6a]) eqn:Ej; [|reflexivity].
    apply bytes_eqb_eq in Ej. subst data. rewrite Keymap_has_circle in E.
    discriminate.
Qed.

(** X9: [data_received] looks the chunk up whole: a chunk of any length
    other than one is reported as unknown and changes nothing else, even
    when it is made of key bytes; and [running] is changed by one chunk
    only, b'j' alone, which sets it to False. *)
Theorem data_received_takes_whole_chunks (data : bytes)
    (o : rawProtocal_object) :
  (List.length data <> 1 ->
   dict_get Keymap data = None /\
   rawProtocal_data_received data o =
     {| transport := transport o; running := running o;
        printed := printed o ++ [PrintUnknown data] |}) /\
  running (rawProtocal_data_received data o) =
    (if bytes_eqb data [Byte.x6a] then Some false else running o) /\
  transport (rawProtocal_data_received data o) = transport o.
Proof.
  destruct (data_received_effect data o) as (Hu & Hr & Ht).
  split; [|split; assumption].
  intros Hlen. split; [|apply Hu; exact Hlen].
  destruct (dict_get Keymap data) as [[key name]|] eqn:E; [|reflexivity].
  destruct (Keymap_circle data key name E) as [Hl _]. contradiction.
Qed.

Lemma data_received_takes_whole_chunks_witness :
  let o := rawProtocal_connection_made rawProtocal_new in
  List.length [Byte.x61; Byte.x6a] <> 1 /\
  rawProtocal_data_received [Byte.x61; Byte.x6a] o =
    {| transport := IsReader; running := Some true;
       printed := [PrintUnknown [Byte.x61; Byte.x6a]] |} /\
  running (rawProtocal_data_received [Byte.x6a] o) = Some false.
Proof.
  split; [discriminate|]. split.
  - apply (proj1 (data_received_takes_whole_chunks [Byte.x61; Byte.x6a]
                    (rawProtocal_connection_made rawProtocal_new))).
    discriminate.
  - apply (proj1 (proj2 (data_received_takes_whole_chunks [Byte.x6a]
                           (rawProtocal_connection_made rawProtocal_new)))).
Defined.

Lemma running_after (cs : list Call) :
  forall o, Forall not_connection_made cs ->
    running (fold_left rawProtocal_call cs o) =
      if existsb is_circle cs then Some false else running o.
Proof.
  induction cs as [|c cs IH]; intros o Hall; [reflexivity|].
  inversion Hall as [|? ? Hc Hrest]; subst. simpl.
  rewrite (IH _ Hrest).
  destruct c as [m|data m|exc m]; simpl in *; [contradiction| |].
  - destruct (data_received_effect data o) as (_ & Hr & _).
    rewrite Hr. destruct (bytes_eqb data [Byte.x6a]); simpl;
      destruct (existsb is_circle cs); reflexivity.
  - reflexivity.
Qed.

Lemma Hist_tail (cs : list Call) :
  Hist cs -> cs = [] \/
  exists m rest, cs = ConnectionMade m :: rest /\ Forall not_connection_made rest.
Proof.
  intros [|e r|ds Hd|ds r Hd|ds e r Hd Hse|ds b d e r Hd]; [left; reflexivity|..];
    right; eexists; eexists; (split; [reflexivity|]).
  - repeat constructor.
  - eapply Forall_impl; [|exact Hd]. intros [| [|] [|] |]; simpl; auto.
  - apply Forall_app. split; [|repeat constructor].
    eapply Forall_impl; [|exact Hd]. intros [| [|] [|] |]; simpl; auto.
  - apply Forall_app. split; [|repeat constructor].
    eapply Forall_impl; [|exact Hd]. intros [| [|] [|] |]; simpl; auto.
  - apply Forall_app. split; [|repeat constructor].
    eapply Forall_impl; [|exact Hd]. intros [| [|] [|] |]; simpl; auto.
Qed.

Lemma isDone_after (port : Serial) (h : Protocol) (sched : list Op) :
  calls (reached port h sched) <> [] ->
  rawProtocal_isDone (rawProtocal_after (calls (reached port h sched))) =
    Returns (negb (existsb is_circle (calls (reached port h sched)))).
Proof.
  intros Hne.
  destruct (Hist_tail _ (reached_Hist port h sched)) as [E|(m & rest & E & Hrest)];
    [contradiction|].
  rewrite E. unfold rawProtocal_after, rawProtocal_isDone. simpl.
  rewrite (running_after rest _ Hrest). simpl.
  destruct (existsb is_circle rest); reflexivity.
Qed.

(** X10: once [connection_made] has been called, [isDone] returns True
    until the chunk b'j' has been dispatched alone, and False from then on;
    before that call the instance has no [running] attribute and [isDone]
    raises. *)
Theorem isDone_tells_circle_received (port : Serial) (sched : list Op) :
  (calls (reached port rawProtocal sched) = [] ->
   rawProtocal_isDone (handler_after port sched) =
     Raises (AttributeError "running"%string)) /\
  (calls (reached port rawProtocal sched) <> [] ->
   rawProtocal_isDone (handler_after port sched) =
     Returns (negb (existsb is_circle (calls (reached port rawProtocal sched))))).
Proof.
  split.
  - intros E. unfold handler_after. rewrite E. reflexivity.
  - apply isDone_after.
Qed.

Lemma isDone_tells_circle_received_witness :
  calls (reached ser rawProtocal [OpStart]) = [] /\
  rawProtocal_isDone (handler_after ser [OpStart]) =
    Raises (AttributeError "running"%string) /\
  calls (reached ser rawProtocal
           [OpStart; OpTick (ReadData []); OpTick (ReadData [Byte.x61; Byte.x6a]);
            OpTick (ReadData [Byte.x6a])]) <> [] /\
  rawProtocal_isDone
    (handler_after ser
       [OpStart; OpTick (ReadData []); OpTick (ReadData [Byte.x61; Byte.x6a])])
    = Returns true /\
  rawProtocal_isDone
    (handler_after ser
       [OpStart; OpTick (ReadData []); OpTick (ReadData [Byte.x61; Byte.x6a]);
        OpTick (ReadData [Byte.x6a])]) = Returns false.
Proof.
  split; [reflexivity|]. split.
  - apply (proj1 (isDone_tells_circle_received ser [OpStart])). reflexivity.
  - split; [discriminate|]. split.
    + apply (proj2 (isDone_tells_circle_received ser
               [OpStart; OpTick (ReadData []);
                OpTick (ReadData [Byte.x61; Byte.x6a])])).
      discriminate.
    + apply (proj2 (isDone_tells_circle_received ser
               [OpStart; OpTick (ReadData []);
                OpTick (ReadData [Byte.x61; Byte.x6a]);
                OpTick (ReadData [Byte.x6a])])).
      discriminate.
Defined.

(** ** The script *)

Lemma tick_calls_grow (r : ReadResult) (st : ReaderThread) :
  exists more, calls (thread_tick r st) = calls st ++ more.
Proof.
  destruct st as [s f a l c p t cs n].
  destruct t; unfold_methods; simpl;
    try (exists []; rewrite app_nil_r; reflexivity).
  - destruct (has_cancel_read s); simpl;
      (destruct (connection_made f); simpl;
       [destruct (connection_lost f _ _); simpl|]);
      rewrite <- ?app_assoc; eexists; reflexivity.
  - destruct a; simpl; [destruct (is_open s) eqn:Ho; simpl|].
    + destruct r as [[|b data]|e]; simpl.
      * exists []; rewrite app_nil_r; reflexivity.
      * destruct p as [h|]; simpl;
          [|exists []; rewrite app_nil_r; reflexivity].
        destruct (data_received h cs (b :: data)); simpl;
          [|eexists; reflexivity].
        destruct (connection_lost h _ _); simpl;
          rewrite <- ?app_assoc; eexists; reflexivity.
      * destruct (is_SerialException e); simpl;
          [|exists []; rewrite app_nil_r; reflexivity].
        destruct p as [h|]; simpl;
          [|exists []; rewrite app_nil_r; reflexivity].
        destruct (connection_lost h _ _); simpl; eexists; reflexivity.
    + destruct p as [h|]; simpl;
        [|exists []; rewrite app_nil_r; reflexivity].
      destruct (connection_lost h _ _); simpl; eexists; reflexivity.
    + destruct p as [h|]; simpl;
        [|exists []; rewrite app_nil_r; reflexivity].
      destruct (connection_lost h _ _); simpl; eexists; reflexivity.
Qed.

Lemma exec_calls_grow (sched : list Op) :
  forall st, exists more, calls (exec sched st) = calls st ++ more.
Proof.
  induction sched as [|op sched IH]; intros st.
  - exists []. rewrite app_nil_r. reflexivity.
  - rewrite exec_cons. destruct (IH (step op st)) as (m2 & E2).
    assert (E1 : exists m1, calls (step op st) = calls st ++ m1).
    { assert (Hcases : caller_op op \/ exists r, op = OpTick r).
      { destruct op; simpl; eauto. }
      destruct Hcases as [Hop|[r ->]].
      - exists []. rewrite app_nil_r. apply step_calls_by_tick. exact Hop.
      - apply tick_calls_grow. }
    destruct E1 as (m1 & E1). exists (m1 ++ m2).
    rewrite E2, E1, app_assoc. reflexivity.
Qed.

(** As long as b'j' has not been dispatched alone, the loop goes on. *)
Lemma polled_goes_on (port : Serial) (sleeps : list (list Op)) :
  forall sched,
    calls (reached port rawProtocal sched) <> [] ->
    existsb is_circle
      (calls (reached port rawProtocal (sched ++ List.concat sleeps))) = false ->
    polled port sched sleeps = None.
Proof.
  induction sleeps as [|s rest IH]; intros sched Hne Hno.
  - simpl in *. rewrite app_nil_r in Hno. unfold handler_after.
    rewrite (isDone_after port rawProtocal sched Hne), Hno. reflexivity.
  - assert (Hhere : existsb is_circle (calls (reached port rawProtocal sched))
                    = false).
    { rewrite reached_app in Hno.
      destruct (exec_calls_grow (List.concat (s :: rest))
                  (reached port rawProtocal sched)) as (more & E).
      rewrite E, existsb_app in Hno. apply orb_false_iff in Hno. tauto. }
    simpl. unfold handler_after.
    rewrite (isDone_after port rawProtocal sched Hne), Hhere. simpl.
    rewrite IH; [reflexivity| |].
    + rewrite reached_app.
      destruct (exec_calls_grow s (reached port rawProtocal sched)) as (more & E).
      rewrite E. intros H. apply app_eq_nil in H. tauto.
    + rewrite <- app_assoc. exact Hno.
Qed.

(** Once it has been, the loop is left without an exception. *)
Lemma polled_leaves (port : Serial) (sleeps : list (list Op)) :
  forall sched,
    calls (reached port rawProtocal sched) <> [] ->
    existsb is_circle
      (calls (reached port rawProtocal (sched ++ List.concat sleeps))) = true ->
    exists body, polled port sched sleeps = Some (body, None).
Proof.
  induction sleeps as [|s rest IH]; intros sched Hne Hyes.
  - simpl in *. rewrite app_nil_r in Hyes. unfold handler_after.
    rewrite (isDone_after port rawProtocal sched Hne), Hyes. simpl. eauto.
  - simpl. unfold handler_after.
    rewrite (isDone_after port rawProtocal sched Hne).
    destruct (existsb is_circle (calls (reached port rawProtocal sched)));
      simpl; [eauto|].
    destruct (IH (sched ++ s)) as (body & E).
    + rewrite reached_app.
      destruct (exec_calls_grow s (reached port rawProtocal sched)) as (more & E).
      rewrite E. intros H. apply app_eq_nil in H. tauto.
    + rewrite <- app_assoc. exact Hyes.
    + rewrite E. eauto.
Qed.

Lemma entered_has_calls (port : Serial) (h : Protocol) (sched : list Op) :
  _connection_made (reached port h sched) = true ->
  calls (reached port h sched) <> [].
Proof.
  intros He.
  destruct (reached_Shape port h sched)
    as [Ht Hc Hp Hn He' Hr | ds Ht Hm' Hc Hd Hp Hn He'
       | e' x Ht Hm' Hc Ha Hp Hn He' Hr | ds error x Ht Hm' Hc Hd Ha Hp Hn He'
       | ds e' Ht He'' Hm' Hc Hd Hp Hn He']; rewrite Hc; try discriminate.
  congruence.
Qed.

Lemma entered_calls_later (port : Serial) (h : Protocol)
    (sched later : list Op) :
  _connection_made (reached port h sched) = true ->
  calls (reached port h (sched ++ later)) <> [].
Proof.
  intros He. rewrite reached_app.
  destruct (exec_calls_grow later (reached port h sched)) as (more & E).
  rewrite E. intros H. apply app_eq_nil in H.
  exact (entered_has_calls port h sched He (proj1 H)).
Qed.

(** X11: when [__enter__] has returned the handler, the script ends
    exactly when the chunk b'j' has been dispatched alone: as long as it has
    not, the script goes on polling; once it has, by the next test of
    [isDone] the script leaves its loop, closes the port and returns.  When
    the run ended just before [__enter__] read [self.protocol], [p] is
    [None]: the script closes the port and ends with AttributeError. *)
Theorem script_ends_on_circle (port : Serial) (during between : list Op)
    (sleeps : list (list Op)) :
  _connection_made (reached port rawProtocal (OpStart :: during)) = true ->
  alive (reached port rawProtocal (OpStart :: during)) = true ->
  (protocol (reached port rawProtocal ((OpStart :: during) ++ between)) <> None ->
   existsb is_circle
     (calls (reached port rawProtocal
               (((OpStart :: during) ++ between) ++ List.concat sleeps)))
     = false ->
   fst (script port during between sleeps) = Blocks) /\
  (protocol (reached port rawProtocal ((OpStart :: during) ++ between)) <> None ->
   existsb is_circle
     (calls (reached port rawProtocal
               (((OpStart :: during) ++ between) ++ List.concat sleeps)))
     = true ->
   fst (script port during between sleeps) = Returns tt /\
   is_open (serial (snd (script port during between sleeps))) = false /\
   alive (snd (script port during between sleeps)) = false) /\
  (protocol (reached port rawProtocal ((OpStart :: during) ++ between)) = None ->
   fst (script port during between sleeps) =
     Raises (AttributeError "isDone"%string) /\
   is_open (serial (snd (script port during between sleeps))) = false /\
   alive (snd (script port during between sleeps)) = false).
Proof.
  intros He Ha.
  pose proof (entered_calls_later port rawProtocal _ between He) as Hne.
  unfold script.
  destruct (protocol (reached port rawProtocal ((OpStart :: during) ++ between)))
    as [p|] eqn:Hp.
  - split; [|split].
    + intros _ Hno. rewrite (polled_goes_on port sleeps _ Hne Hno).
      unfold with_ReaderThread, __enter__. rewrite start_fresh.
      change (exec during (reached port rawProtocal [OpStart]))
        with (reached port rawProtocal (OpStart :: during)).
      rewrite He, Ha. reflexivity.
    + intros _ Hyes.
      destruct (polled_leaves port sleeps _ Hne Hyes) as (body & E).
      rewrite E.
      destruct (with_block_closes port rawProtocal during between body None
                  He Ha) as (Hr & Ho & Hal & _).
      auto.
    + discriminate.
  - split; [|split]; try congruence.
    intros _.
    destruct (with_block_closes port rawProtocal during between []
                (Some (AttributeError "isDone"%string)) He Ha)
      as (Hr & Ho & Hal & _).
    auto.
Qed.

Lemma script_ends_on_circle_witness :
  let during := [OpTick (ReadData [])] in
  _connection_made (reached ser rawProtocal (OpStart :: during)) = true /\
  alive (reached ser rawProtocal (OpStart :: during)) = true /\
  fst (script ser during []
         [[OpTick (ReadData key_a)]; [OpTick (ReadData [Byte.x6a; Byte.x6a])]])
    = Blocks /\
  fst (script ser during [OpTick (ReadData key_a)]
         [[OpTick (ReadData key_a)]; [OpTick (ReadData [Byte.x6a])]; []])
    = Returns tt /\
  is_open (serial (snd (script ser during [OpTick (ReadData key_a)]
         [[OpTick (ReadData key_a)]; [OpTick (ReadData [Byte.x6a])]; []])))
    = false /\
  fst (script ser during [OpTick (ReadRaises (SerialException 0))] [])
    = Raises (AttributeError "isDone"%string).
Proof.
  split; [reflexivity|]. split; [reflexivity|]. split; [|split; [|split]].
  - apply (proj1 (script_ends_on_circle ser [OpTick (ReadData [])] []
                    [[OpTick (ReadData key_a)];
                     [OpTick (ReadData [Byte.x6a; Byte.x6a])]]
                    eq_refl eq_refl)).
    + discriminate.
    + reflexivity.
  - apply (proj1 (proj2 (script_ends_on_circle ser [OpTick (ReadData [])]
                           [OpTick (ReadData key_a)]
                           [[OpTick (ReadData key_a)];
                            [OpTick (ReadData [Byte.x6a])]; []]
                           eq_refl eq_refl))).
    + discriminate.
    + reflexivity.
  - apply (proj1 (proj2 (script_ends_on_circle ser [OpTick (ReadData [])]
                           [OpTick (ReadData key_a)]
                           [[OpTick (ReadData key_a)];
                            [OpTick (ReadData [Byte.x6a])]; []]
                           eq_refl eq_refl))).
    + discriminate.
    + reflexivity.
  - apply (proj2 (proj2 (script_ends_on_circle ser [OpTick (ReadData [])]
                           [OpTick (ReadRaises (SerialException 0))] []
                           eq_refl eq_refl))).
    reflexivity.
Defined.

(** X12: when the run is over, whatever ended it, and b'j' has not been
    dispatched alone, [isDone] goes on returning True: the script polls for
    ever and never closes the port. *)
Theorem script_polls_forever_after_disconnect (port : Serial)
    (during between : list Op) (sleeps more : list (list Op))
    (esc : option exn) :
  _connection_made (reached port rawProtocal (OpStart :: during)) = true ->
  alive (reached port rawProtocal (OpStart :: during)) = true ->
  protocol (reached port rawProtocal ((OpStart :: during) ++ between)) <> None ->
  thread (reached port rawProtocal
            (((OpStart :: during) ++ between) ++ List.concat sleeps))
    = Finished esc ->
  existsb is_circle
    (calls (reached port rawProtocal
              (((OpStart :: during) ++ between) ++ List.concat sleeps)))
    = false ->
  fst (script port during between (sleeps ++ more)) = Blocks /\
  rawProtocal_isDone
    (handler_after port
       (((OpStart :: during) ++ between) ++ List.concat (sleeps ++ more)))
    = Returns true.
Proof.
  intros He Ha Hp Hf Hno.
  pose proof (entered_calls_later port rawProtocal _ between He) as Hne.
  assert (Hcalls : calls (reached port rawProtocal
                            (((OpStart :: during) ++ between) ++
                             List.concat (sleeps ++ more))) =
                   calls (reached port rawProtocal
                            (((OpStart :: during) ++ between) ++
                             List.concat sleeps))).
  { rewrite List.concat_app, app_assoc, reached_app.
    destruct (finished_exec_same (List.concat more) _ esc Hf) as (_ & Ec & _).
    exact Ec. }
  split.
  - unfold script.
    destruct (protocol (reached port rawProtocal
                          ((OpStart :: during) ++ between))) as [p|];
      [|congruence].
    rewrite (polled_goes_on port (sleeps ++ more) _ Hne).
    + unfold with_ReaderThread, __enter__. rewrite start_fresh.
      change (exec during (reached port rawProtocal [OpStart]))
        with (reached port rawProtocal (OpStart :: during)).
      rewrite He, Ha. reflexivity.
    + rewrite Hcalls. exact Hno.
  - unfold handler_after. rewrite isDone_after.
    + rewrite Hcalls, Hno. reflexivity.
    + rewrite Hcalls. rewrite reached_app.
      destruct (exec_calls_grow (List.concat sleeps)
                  (reached port rawProtocal ((OpStart :: during) ++ between)))
        as (m & E).
      rewrite E. intros H. apply app_eq_nil in H. tauto.
Qed.

Lemma script_polls_forever_after_disconnect_witness :
  let during := [OpTick (ReadData [])] in
  let between := [OpTick (ReadData key_a)] in
  let sleeps := [[OpTick (ReadData key_a)];
                 [OpTick (ReadRaises (SerialException 0))]] in
  _connection_made (reached ser rawProtocal (OpStart :: during)) = true /\
  alive (reached ser rawProtocal (OpStart :: during)) = true /\
  thread (reached ser rawProtocal
            (((OpStart :: during) ++ between) ++ List.concat sleeps))
    = Finished None /\
  fst (script ser during between
         (sleeps ++ [[OpTick (ReadData [Byte.x6a])]; [OpWrite key_a]])) = Blocks.
Proof.
  split; [reflexivity|]. split; [reflexivity|]. split; [reflexivity|].
  refine (proj1 (script_polls_forever_after_disconnect ser
                   [OpTick (ReadData [])] [OpTick (ReadData key_a)]
                   [[OpTick (ReadData key_a)];
                    [OpTick (ReadRaises (SerialException 0))]]
                   [[OpTick (ReadData [Byte.x6a])]; [OpWrite key_a]]
                   None eq_refl eq_refl _ eq_refl eq_refl)).
  discriminate.
Defined.

(** ** Writing through the handler *)

Lemma transport_after_data (ds : list Call) :
  forall o, Forall data_ok ds ->
    transport (fold_left rawProtocal_call ds o) = transport o.
Proof.
  induction ds as [|c ds IH]; intros o Hall; [reflexivity|].
  inversion Hall as [|? ? Hc Hrest]; subst. simpl. rewrite (IH _ Hrest).
  destruct c as [m|data m|exc m]; simpl in Hc; try contradiction.
  destruct (data_received_effect data o) as (_ & _ & Ht). exact Ht.
Qed.

Lemma transport_after (cs : list Call) :
  Hist cs ->
  transport (rawProtocal_after cs) =
    match cs with
    | [] => NoAttr
    | _ => if Nat.eqb (lost_calls cs) 0 then IsReader else IsNone
    end.
Proof.
  unfold rawProtocal_after.
  intros [|e r|ds Hd|ds r Hd|ds e r Hd Hse|ds b d e r Hd]; try reflexivity.
  - change (lost_calls (ConnectionMade None :: ds)) with (lost_calls ds).
    rewrite lost_calls_data
      by (eapply Forall_impl; [apply data_ok_call|exact Hd]).
    simpl. apply transport_after_data. exact Hd.
  - change (lost_calls (ConnectionMade None :: ds ++ [ConnectionLost None r]))
      with (lost_calls (ds ++ [ConnectionLost None r])).
    rewrite lost_calls_snoc. simpl. rewrite fold_left_app. reflexivity.
  - change (lost_calls (ConnectionMade None :: ds ++ [ConnectionLost (Some e) r]))
      with (lost_calls (ds ++ [ConnectionLost (Some e) r])).
    rewrite lost_calls_snoc. simpl. rewrite fold_left_app. reflexivity.
  - change (lost_calls (ConnectionMade None :: ds ++
              [DataReceived (b :: d) (Some e); ConnectionLost (Some e) r]))
      with (lost_calls (ds ++
              [DataReceived (b :: d) (Some e)] ++ [ConnectionLost (Some e) r])).
    rewrite app_assoc, lost_calls_snoc. simpl.
    rewrite fold_left_app. reflexivity.
Qed.

(** X13: the handler's [write] goes to the reader's [write] while the
    connection is up; before [connection_made] and after [connection_lost]
    it raises AttributeError and nothing reaches the port.  In all three
    cases the chunk is printed first. *)
Theorem handler_write_needs_connection (port : Serial) (sched : list Op)
    (data : bytes) :
  (calls (reached port rawProtocal sched) = [] ->
   fst (rawProtocal_write data (handler_after port sched)
          (reached port rawProtocal sched)) =
     Raises (AttributeError "transport"%string) /\
   snd (snd (rawProtocal_write data (handler_after port sched)
               (reached port rawProtocal sched))) =
     reached port rawProtocal sched) /\
  (thread (reached port rawProtocal sched) = InLoop ->
   fst (rawProtocal_write data (handler_after port sched)
          (reached port rawProtocal sched)) =
     fst (write data (reached port rawProtocal sched)) /\
   snd (snd (rawProtocal_write data (handler_after port sched)
               (reached port rawProtocal sched))) =
     snd (write data (reached port rawProtocal sched))) /\
  (lost_calls (calls (reached port rawProtocal sched)) = 1 ->
   fst (rawProtocal_write data (handler_after port sched)
          (reached port rawProtocal sched)) =
     Raises (AttributeError "write"%string) /\
   snd (snd (rawProtocal_write data (handler_after port sched)
               (reached port rawProtocal sched))) =
     reached port rawProtocal sched) /\
  printed (fst (snd (rawProtocal_write data (handler_after port sched)
                       (reached port rawProtocal sched)))) =
    printed (handler_after port sched) ++ [PrintBytes data].
Proof.
  pose proof (transport_after _ (reached_Hist port rawProtocal sched)) as Ht.
  fold (handler_after port sched) in Ht.
  unfold rawProtocal_write.
  split; [|split; [|split]].
  - intros E. rewrite E in Ht. rewrite Ht. auto.
  - intros Hloop.
    destruct (reached_Shape port rawProtocal sched)
      as [Hb| ds _ _ Hc Hd _ _ _ | | |]; try congruence;
      [destruct Hb; congruence|].
    rewrite Hc in Ht.
    change (lost_calls (ConnectionMade None :: ds)) with (lost_calls ds) in Ht.
    rewrite lost_calls_data in Ht
      by (eapply Forall_impl; [apply data_ok_call|exact Hd]).
    simpl in Ht. rewrite Ht.
    destruct (write data (reached port rawProtocal sched)); auto.
  - intros Hl. rewrite Hl in Ht.
    destruct (calls (reached port rawProtocal sched)); [discriminate|].
    simpl in Ht. rewrite Ht. auto.
  - destruct (transport (handler_after port sched)); simpl; auto.
    destruct (write data (reached port rawProtocal sched)); auto.
Qed.

Lemma handler_write_needs_connection_witness :
  calls (reached ser rawProtocal [OpStart]) = [] /\
  fst (rawProtocal_write key_a (handler_after ser [OpStart])
         (reached ser rawProtocal [OpStart])) =
    Raises (AttributeError "transport"%string) /\
  thread (reached ser rawProtocal [OpStart; OpTick (ReadData [])]) = InLoop /\
  fst (rawProtocal_write key_a
         (handler_after ser [OpStart; OpTick (ReadData [])])
         (reached ser rawProtocal [OpStart; OpTick (ReadData [])])) =
    Returns tt /\
  lost_calls (calls (reached ser rawProtocal
                       [OpStart; OpTick (ReadData []); OpStop;
                        OpTick (ReadData [])])) = 1 /\
  fst (rawProtocal_write key_a
         (handler_after ser [OpStart; OpTick (ReadData []); OpStop;
                             OpTick (ReadData [])])
         (reached ser rawProtocal [OpStart; OpTick (ReadData []); OpStop;
                                   OpTick (ReadData [])])) =
    Raises (AttributeError "write"%string).
Proof.
  split; [reflexivity|]. split.
  - apply (proj1 (handler_write_needs_connection ser [OpStart] key_a)).
    reflexivity.
  - split; [reflexivity|]. split.
    + destruct (proj1 (proj2 (handler_write_needs_connection ser
                  [OpStart; OpTick (ReadData [])] key_a)) eq_refl) as [H _].
      rewrite H. reflexivity.
    + split; [reflexivity|].
      apply (proj1 (proj2 (proj2 (handler_write_needs_connection ser
               [OpStart; OpTick (ReadData []); OpStop; OpTick (ReadData [])]
               key_a)))).
      reflexivity.
Defined.

(** ** The worker and its pipe *)

Lemma iter_succ (k : nat) (z : Z) :
  Nat.iter k (fun sub_total => (sub_total + 1)%Z) z = (z + Z.of_nat k)%Z.
Proof.
  induction k as [|k IH]; simpl Nat.iter.
  - simpl. lia.
  - rewrite IH. lia.
Qed.

Lemma count_up_max (baseNum : Z) : count_up baseNum = Z.max 0 baseNum.
Proof. unfold count_up. rewrite iter_succ. lia. Qed.

(** X14: on an open connection the worker sends one message, the larger of
    0 and [baseNum] (a negative count gives an empty range), closes its end
    of the pipe and then prints that number; on a closed connection it
    raises at [send], with nothing sent and nothing printed. *)
Theorem worker_sends_its_count (id baseNum : Z) (p : Pipe) :
  (child_conn_open p = true ->
   fst (worker id baseNum p) = Returns tt /\
   in_flight (snd (worker id baseNum p)) = in_flight p ++ [Z.max 0 baseNum] /\
   child_conn_open (snd (worker id baseNum p)) = false /\
   stdout (snd (worker id baseNum p)) =
     stdout p ++ [LineProcessInfo; LineResult (Z.max 0 baseNum)]) /\
  (child_conn_open p = false ->
   worker id baseNum p = (Raises handle_is_closed, p)).
Proof.
  unfold worker, conn_send. rewrite count_up_max. split; intros ->.
  - simpl. rewrite <- app_assoc. auto.
  - reflexivity.
Qed.

Lemma worker_sends_its_count_witness :
  let p := {| child_conn_open := true; in_flight := [7%Z]; stdout := [] |} in
  child_conn_open p = true /\
  in_flight (snd (worker 1 3 p)) = [7%Z; 3%Z] /\
  in_flight (snd (worker 1 (-2) p)) = [7%Z; 0%Z] /\
  child_conn_open (conn_close p) = false /\
  worker 1 3 (conn_close p) = (Raises handle_is_closed, conn_close p).
Proof.
  split; [reflexivity|]. split.
  - apply (proj1 (worker_sends_its_count 1 3
                    {| child_conn_open := true; in_flight := [7%Z];
                       stdout := [] |}) eq_refl).
  - split.
    + apply (proj1 (worker_sends_its_count 1 (-2)
                      {| child_conn_open := true; in_flight := [7%Z];
                         stdout := [] |}) eq_refl).
    + split; [reflexivity|].
      apply (proj2 (worker_sends_its_count 1 3
                      (conn_close {| child_conn_open := true;
                                     in_flight := [7%Z]; stdout := [] |}))).
      reflexivity.
Defined.

(** X15: [main] returns after receiving from the pipe exactly what the
    worker counted, the larger of 0 and the count it was given, leaving the
    pipe empty; with the count of the source it prints 100000000, after the
    worker's own lines. *)
Theorem main_receives_the_count (baseNum : Z) :
  fst (main_with baseNum) = Returns tt /\
  in_flight (snd (main_with baseNum)) = [] /\
  stdout (snd (main_with baseNum)) =
    [LineParentId; LineProcessInfo; LineResult (Z.max 0 baseNum);
     LineSeconds; LineBlank; LineMain (Z.max 0 baseNum); LineMainDone] /\
  stdout (snd main) =
    [LineParentId; LineProcessInfo; LineResult 100000000;
     LineSeconds; LineBlank; LineMain 100000000; LineMainDone].
Proof.
  assert (G : forall n,
            main_with n =
              (Returns tt,
               {| child_conn_open := false; in_flight := [];
                  stdout := [LineParentId; LineProcessInfo;
                             LineResult (Z.max 0 n); LineSeconds; LineBlank;
                             LineMain (Z.max 0 n); LineMainDone] |})).
  { intros n. unfold main_with, worker, conn_send. rewrite count_up_max.
    reflexivity. }
  unfold main. rewrite !G. auto.
Qed.
